(** * Bhumio: reconciliation, idempotent submission and deduplicated paging

    A shallow embedding of the client and server logic of the repository:
    - [Reconciler]  src/app/(pages)/out-of-order/page.tsx
    - [Backend]     src/app/api/form-consistent/route.ts
    - [Ledger]      src/app/page.tsx (the eventually consistent payment form)
    - [Pagination]  src/app/(pages)/quirky/page.tsx and the quirky GET handler

    Conventions.  React state and refs become fields of a page record that is
    threaded through every handler.  Timestamps are the integer epoch
    milliseconds produced by [Date.now()], hence [Z].  A [localStorage] item
    is described by what [JSON.parse] makes of it (type [stored]). *)

From Stdlib Require Import ZArith QArith Lia Permutation Sorted.
From stdpp Require Import base option list gmap strings pretty sets.
From Equations Require Import Equations.

#[local] Set Warnings "-register-all".

Local Open Scope string_scope.
Local Open Scope list_scope.
Local Open Scope Z_scope.

(** ** Shared vocabulary *)

(** One line written to the browser console. *)
Inductive console_entry : Type :=
  | console_log (msg : string)
  | console_error (msg : string).

(** The content of one [localStorage] key, classified by the outcome of
    [localStorage.getItem] followed by [JSON.parse]:
    - [NoItem]: [getItem] returns [null];
    - [Unparseable text]: a text that [JSON.parse] rejects with a
      [SyntaxError] (the empty text is of this kind, and is falsy);
    - [Saved a]: a text that parses to the value [a]. *)
Inductive stored (A : Type) : Type :=
  | NoItem
  | Unparseable (text : string)
  | Saved (a : A).
Arguments NoItem {A}.
Arguments Unparseable {A} text.
Arguments Saved {A} a.

(** The test [if (savedData)]: [null] and the empty string are falsy. *)
Definition truthy_item {A} (item : stored A) : bool :=
  match item with
  | NoItem => false
  | Unparseable text => negb (String.eqb text "")
  | Saved _ => true
  end.

(** How a block of code ends: normally, or by throwing. *)
Inductive completion : Type :=
  | Normal
  | Thrown (name : string).

(** An item that holds nothing [JSON.parse] can read. *)
Definition unreadable {A} (item : stored A) : Prop :=
  match item with
  | Saved _ => False
  | _ => True
  end.

(** A value as [JSON.parse] returns it; [props] lists the own properties
    of an object, each name once. *)
Inductive json : Type :=
  | JNull
  | JBool (b : bool)
  | JNum (q : Q)
  | JStr (s : string)
  | JArr (items : list json)
  | JObj (props : list (string * json)).

(** [v[name]] for a name that no prototype defines (as [status] or [id]):
    the own property of an object, [undefined] ([None]) otherwise.  The
    value is not [null]: reading a property of [null] throws. *)
Definition get_prop (v : json) (name : string) : option json :=
  match v with
  | JObj props => snd <$> List.find (fun p => String.eqb (fst p) name) props
  | _ => None
  end.

(** Whether converting the value to a string (in a template literal)
    throws: an object does when it has an own [toString] property, which
    cannot be called; an array joins the strings of its elements. *)
Fixpoint to_string_throws (v : json) : bool :=
  match v with
  | JObj props => existsb (fun p => String.eqb (fst p) "toString") props
  | JArr items => existsb to_string_throws items
  | _ => false
  end.

(** ** The out-of-order event reconciler *)

Module Reconciler.

Inductive EventType : Type := created | updated | deleted.

#[global] Instance EventType_eq_dec : EqDecision EventType.
Proof. solve_decision. Defined.

Record ServerEvent : Type := mkServerEvent {
  ev_id : string;
  ev_timestamp : Z;
  ev_type : EventType;
  ev_payload : string;
}.

Record ItemState : Type := mkItemState {
  it_id : string;
  it_lastUpdated : Z;
  it_type : EventType;
  it_payload : string;
}.

(** The component: [eventLog] is React state, [stateMap] and [isLoaded]
    are refs, [orders_db] is the item 'bhumio-orders-db'.  The two derived
    lists of [refreshUI] are views of [stateMap] and are not kept. *)
Record Page : Type := mkPage {
  eventLog : list ServerEvent;
  stateMap : gmap string ItemState;
  isLoaded : bool;
  orders_db : stored (list (string * ItemState));
  console : list console_entry;
}.

Definition initial (db : stored (list (string * ItemState))) : Page :=
  mkPage [] ∅ false db [].

(** [new Map(entries)]: entries are inserted in order, later ones win. *)
Definition new_Map (entries : list (string * ItemState)) : gmap string ItemState :=
  foldl (fun m kv => <[kv.1 := kv.2]> m) ∅ entries.

(** [saveToStorage]: nothing before hydration has finished; afterwards the
    entries of the map are written (their order is not modelled). *)
Definition saveToStorage (s : Page) : Page :=
  if isLoaded s
  then mkPage (eventLog s) (stateMap s) (isLoaded s)
              (Saved (map_to_list (stateMap s))) (console s)
  else s.

(** The object literal stored by [processEvent]. *)
Definition snapshot_of (e : ServerEvent) : ItemState :=
  mkItemState (ev_id e) (ev_timestamp e) (ev_type e) (ev_payload e).

(** [existingRecord && existingRecord.lastUpdated >= newEvent.timestamp] *)
Definition is_late (existingRecord : option ItemState) (newEvent : ServerEvent) : bool :=
  match existingRecord with
  | Some r => it_lastUpdated r >=? ev_timestamp newEvent
  | None => false
  end.

Definition processEvent (newEvent : ServerEvent) (s : Page) : Page :=
  let s1 := mkPage (newEvent :: eventLog s) (stateMap s) (isLoaded s)
                   (orders_db s) (console s) in
  let existingRecord := stateMap s1 !! ev_id newEvent in
  if is_late existingRecord newEvent
  then mkPage (eventLog s1) (stateMap s1) (isLoaded s1) (orders_db s1)
              (console_log ("[Ignored] Late event for " +:+ ev_id newEvent)
                 :: console s1)
  else saveToStorage
         (mkPage (eventLog s1)
                 (<[ev_id newEvent := snapshot_of newEvent]> (stateMap s1))
                 (isLoaded s1) (orders_db s1) (console s1)).

(** Events delivered one after the other, head first. *)
Definition deliver (events : list ServerEvent) (s : Page) : Page :=
  foldl (fun acc e => processEvent e acc) s events.

(** The hydration effect.  The [try] block either completes or throws;
    [catch] logs and swallows whatever was thrown. *)
Definition hydrate_try (s : Page) : Page * completion :=
  match orders_db s with
  | Saved parsedEntries =>
      (mkPage (eventLog s) (new_Map parsedEntries) (isLoaded s)
              (orders_db s) (console s), Normal)
  | _ => (s, Thrown "SyntaxError")
  end.

Definition hydrate (s : Page) : Page :=
  let s1 :=
    if truthy_item (orders_db s)
    then match hydrate_try s with
         | (s', Normal) => s'
         | (s', Thrown _) =>
             mkPage (eventLog s') (stateMap s') (isLoaded s') (orders_db s')
                    (console_error "Failed to load storage" :: console s')
         end
    else s in
  mkPage (eventLog s1) (stateMap s1) true (orders_db s1) (console s1).

#[global] Instance ServerEvent_eq_dec : EqDecision ServerEvent.
Proof. solve_decision. Defined.

(** [clearStorage]: the item is removed, the map and the log are emptied. *)
Definition clearStorage (s : Page) : Page :=
  mkPage [] ∅ (isLoaded s) NoItem (console s).

(** The page closed and opened again: a new component hydrates from what
    the item holds. *)
Definition reload (s : Page) : Page := hydrate (initial (orders_db s)).

(** The feed of the page: [eventLog.slice(0, 5)]. *)
Definition live_feed (s : Page) : list ServerEvent := take 5 (eventLog s).

(** [Array.prototype.sort(compare)], for a comparator that is consistent:
    the stable sort, elements that compare equal keep their order. *)
Fixpoint sort_insert {A} (compare : A → A → Z) (x : A) (sorted : list A) : list A :=
  match sorted with
  | [] => [x]
  | y :: rest =>
      if compare x y <=? 0 then x :: y :: rest
      else y :: sort_insert compare x rest
  end.

Definition sort {A} (compare : A → A → Z) (l : list A) : list A :=
  foldr (sort_insert compare) [] l.

(** The order of the storage view: newest first. *)
Definition newer_or_equal (a b : ItemState) : Prop := it_lastUpdated b ≤ it_lastUpdated a.

(** [refreshUI] on the array [Array.from(stateMap.current.values())]: the
    pair ([activeItems], [allItemsInStorage]).  [localeCompare] is the
    string comparison of the browser's locale. *)
Definition refreshUI (localeCompare : string → string → Z) (allItems : list ItemState)
    : list ItemState * list ItemState :=
  let active := filter (fun item => it_type item ≠ deleted) allItems in
  (sort (fun a b => localeCompare (it_id a) (it_id b)) active,
   sort (fun a b => it_lastUpdated b - it_lastUpdated a) allItems).

(** [generateOrderFlow]: the three events of one order, [n] being the
    number drawn for its id and [t] the value of [Date.now()]. *)
Definition order_id (n : Z) : string := "ORD-" +:+ pretty n.

Definition order_events (n t : Z) : list ServerEvent :=
  let id := order_id n in
  [ mkServerEvent id t created ("Order " +:+ id +:+ " - PENDING");
    mkServerEvent id (t + 2000) updated ("Order " +:+ id +:+ " - CONFIRMED");
    mkServerEvent id (t + 5000) updated ("Order " +:+ id +:+ " - SHIPPED") ].

(** The last of them. *)
Definition shipped (n t : Z) : ServerEvent :=
  mkServerEvent (order_id n) (t + 5000) updated ("Order " +:+ order_id n +:+ " - SHIPPED").

(** *** The hydration effect over an arbitrary document

    The entries handed to [new Map] are whatever [JSON.parse] returns. *)

(** One item of the iterable handed to [new Map]: the constructor reads
    the properties [0] and [1] of an object (the first two elements of an
    array), an absent one being [undefined] ([None]); an item that is not
    an object ([None]) makes the constructor throw. *)
Definition raw_entry (item : json) : option (option json * option json) :=
  match item with
  | JArr elements => Some (elements !! 0%nat, elements !! 1%nat)
  | JObj _ => Some (get_prop item "0", get_prop item "1")
  | _ => None
  end.

(** [new Map(parsedEntries)]: the [set] calls of the constructor, in order,
    or [None] when it throws.  [null] gives the empty map; numbers,
    booleans and plain objects are not iterable; a string is iterated by
    its characters, which are not objects. *)
Definition raw_new_Map (parsedEntries : json) : option (list (option json * option json)) :=
  match parsedEntries with
  | JNull => Some []
  | JArr items => mapM raw_entry items
  | JStr s => if String.eqb s "" then Some [] else None
  | JBool _ | JNum _ | JObj _ => None
  end.

(** The refs of the page over documents: the [set] calls that built
    [stateMap.current], and [isLoaded].  The console is not recorded:
    whether [refreshUI] throws over unchecked values depends on the
    comparisons [sort] makes. *)
Record RawPage : Type := mkRawPage {
  raw_stateMap : list (option json * option json);
  raw_isLoaded : bool;
}.

Definition raw_initial : RawPage := mkRawPage [] false.

(** The [try] block: when [JSON.parse] or [new Map] throws, the assignment
    to [stateMap.current] is not made; once it is made, whatever
    [refreshUI] throws is caught as well. *)
Definition raw_hydrate_try (item : stored json) (s : RawPage) : RawPage :=
  match item with
  | Saved parsedEntries =>
      match raw_new_Map parsedEntries with
      | Some entries => mkRawPage entries (raw_isLoaded s)
      | None => s
      end
  | _ => s
  end.

Definition raw_hydrate (item : stored json) (s : RawPage) : RawPage :=
  let s1 := if truthy_item item then raw_hydrate_try item s else s in
  mkRawPage (raw_stateMap s1) true.

(** The document [saveToStorage] writes for the entries of the map. *)
Definition type_name (ty : EventType) : string :=
  match ty with
  | created => "created"
  | updated => "updated"
  | deleted => "deleted"
  end.

Definition item_json (r : ItemState) : json :=
  JObj [ ("id", JStr (it_id r)); ("lastUpdated", JNum (inject_Z (it_lastUpdated r)));
         ("type", JStr (type_name (it_type r))); ("payload", JStr (it_payload r)) ].

Definition entries_json (entries : list (string * ItemState)) : json :=
  JArr ((fun kv => JArr [JStr kv.1; item_json kv.2]) <$> entries).

(** *** Scenarios *)

(** The scenario of the specification: t=100 created, t=105 updated and
    t=110 updated for entity A, delivered as 110, 100, 105. *)
Definition scenario_events : list ServerEvent :=
  [ mkServerEvent "A" 100 created "Order A - PENDING";
    mkServerEvent "A" 105 updated "Order A - CONFIRMED";
    mkServerEvent "A" 110 updated "Order A - SHIPPED" ].

Definition scenario_delivery : list ServerEvent :=
  [ mkServerEvent "A" 110 updated "Order A - SHIPPED";
    mkServerEvent "A" 100 created "Order A - PENDING";
    mkServerEvent "A" 105 updated "Order A - CONFIRMED" ].

(** A deletion of entity A at t=110, and older events that arrive after it. *)
Definition tombstone : ServerEvent := mkServerEvent "A" 110 deleted "Order A - CANCELLED".

Definition stale_arrivals : list ServerEvent :=
  [ mkServerEvent "A" 100 created "Order A - PENDING";
    mkServerEvent "B" 500 created "Order B - PENDING";
    mkServerEvent "A" 105 updated "Order A - CONFIRMED" ].

End Reconciler.


(** ** The idempotency backend (api/form-consistent/route.ts) *)

Module Backend.

(** What [await req.json()] yields.  [Fields] records the three properties
    the handler destructures; [None] is an absent (or null) property. *)
Inductive RequestBody : Type :=
  | BadJson
  | NullBody
  | Fields (email : option string) (amount : option Q) (idempotencyKey : option string).

Record StoredTransaction : Type := mkStoredTransaction {
  st_email : string;
  st_amount : Q;
  st_date : Z;
}.

Inductive ResponseBody : Type :=
  | ErrorBody (error : string)
  | SuccessBody (message : string) (status : string) (id : string).

Record Response : Type := mkResponse {
  http_status : Z;
  body : ResponseBody;
}.

(** The handler's effect: the module-level map after the call, the
    response, and, when the handler awaited its delay, the draw the delay
    is computed from ([5000 + draw * 5000] ms, in double arithmetic, which
    is not reproduced here). *)
Record Outcome : Type := mkOutcome {
  processedTransactions : gmap string StoredTransaction;
  response : Response;
  delayed : option Q;
}.

(** [!email], [!idempotencyKey] *)
Definition falsy_string (v : option string) : bool :=
  match v with
  | None => true
  | Some s => String.eqb s ""
  end.

(** [!amount] *)
Definition falsy_number (v : option Q) : bool :=
  match v with
  | None => true
  | Some q => Qeq_bool q 0
  end.

Definition Qltb (x y : Q) : bool := negb (Qle_bool y x).

(** The literals 0.3 and 0.5 as the doubles they denote. *)
Definition lit_0_3 : Q := 5404319552844595 # 18014398509481984.
Definition lit_0_5 : Q := 1 # 2.

(** [POST], for a call that no other call overlaps: whatever the handler
    awaits, the map is not touched in between.  [random] and [delay_random]
    are the two values drawn from [Math.random()], [now] is the value of
    [new Date()]. *)
Definition POST (req : RequestBody) (random delay_random : Q) (now : Z)
    (db : gmap string StoredTransaction) : Outcome :=
  match req with
  | BadJson | NullBody =>
      mkOutcome db (mkResponse 500 (ErrorBody "An unexpected error occurred")) None
  | Fields email amount idempotencyKey =>
      if falsy_string email || falsy_number amount || falsy_string idempotencyKey
      then mkOutcome db (mkResponse 400 (ErrorBody "Missing required fields")) None
      else
        let email := default "" email in
        let amount := default 0%Q amount in
        let idempotencyKey := default "" idempotencyKey in
        if bool_decide (is_Some (db !! idempotencyKey))
        then mkOutcome db
               (mkResponse 200
                  (SuccessBody "Transaction already processed" "success" idempotencyKey))
               None
        else if Qltb random lit_0_3
        then mkOutcome db
               (mkResponse 503 (ErrorBody "Service temporarily unavailable")) None
        else
          mkOutcome
            (<[idempotencyKey := mkStoredTransaction email amount now]> db)
            (mkResponse 200
               (SuccessBody "Transaction recorded successfully" "success" idempotencyKey))
            (if Qltb random lit_0_5 then Some delay_random else None)
  end.

(** The key a request carries, when it carries one. *)
Definition key_of (req : RequestBody) : option string :=
  match req with
  | Fields _ _ (Some k) => Some k
  | _ => None
  end.

(** One call of the handler: the body it receives, its two random draws
    and its clock. *)
Record Call : Type := mkCall {
  call_body : RequestBody;
  call_random : Q;
  call_delay_random : Q;
  call_now : Z;
}.

Definition handle (db : gmap string StoredTransaction) (c : Call) : Outcome :=
  POST (call_body c) (call_random c) (call_delay_random c) (call_now c) db.

(** The module-level map after the handler has served the calls in order. *)
Definition serve (calls : list Call) (db : gmap string StoredTransaction)
    : gmap string StoredTransaction :=
  foldl (fun acc c => processedTransactions (handle acc c)) db calls.

(** *** Overlapping calls

    [await delay(...)] stands between the idempotency check and the write:
    while a call sleeps, the server runs other calls. *)

(** A call that has passed every check and sleeps before it records. *)
Record Sleeper : Type := mkSleeper {
  sl_key : string;
  sl_email : string;
  sl_amount : Q;
  sl_draw : Q;
}.

(** How far the handler gets before it gives way: it answers, or it
    awaits its delay. *)
Inductive Progress : Type :=
  | Answers (o : Outcome)
  | Awaits (w : Sleeper).

(** [POST] up to [await delay(...)]. *)
Definition POST_begin (req : RequestBody) (random delay_random : Q) (now : Z)
    (db : gmap string StoredTransaction) : Progress :=
  match req with
  | BadJson | NullBody =>
      Answers (mkOutcome db (mkResponse 500 (ErrorBody "An unexpected error occurred")) None)
  | Fields email amount idempotencyKey =>
      if falsy_string email || falsy_number amount || falsy_string idempotencyKey
      then Answers (mkOutcome db (mkResponse 400 (ErrorBody "Missing required fields")) None)
      else
        let email := default "" email in
        let amount := default 0%Q amount in
        let idempotencyKey := default "" idempotencyKey in
        if bool_decide (is_Some (db !! idempotencyKey))
        then Answers
               (mkOutcome db
                  (mkResponse 200
                     (SuccessBody "Transaction already processed" "success" idempotencyKey))
                  None)
        else if Qltb random lit_0_3
        then Answers
               (mkOutcome db
                  (mkResponse 503 (ErrorBody "Service temporarily unavailable")) None)
        else if Qltb random lit_0_5
        then Awaits (mkSleeper idempotencyKey email amount delay_random)
        else Answers
               (mkOutcome
                  (<[idempotencyKey := mkStoredTransaction email amount now]> db)
                  (mkResponse 200
                     (SuccessBody "Transaction recorded successfully" "success"
                                  idempotencyKey))
                  None)
  end.

(** [POST] from the moment the delay is over; [now] and [db] are the clock
    and the map of that moment. *)
Definition POST_resume (w : Sleeper) (now : Z) (db : gmap string StoredTransaction)
    : Outcome :=
  mkOutcome
    (<[sl_key w := mkStoredTransaction (sl_email w) (sl_amount w) now]> db)
    (mkResponse 200
       (SuccessBody "Transaction recorded successfully" "success" (sl_key w)))
    (Some (sl_draw w)).

(** The server: the map, the calls asleep, and the answers given so far. *)
Record Server : Type := mkServer {
  store : gmap string StoredTransaction;
  asleep : list Sleeper;
  answered : list Response;
}.

(** One turn of the server: a call arrives and runs up to its answer or
    its delay, or the delay of the [i]-th sleeping call is over. *)
Inductive Turn : Type :=
  | Arrives (c : Call)
  | Wakes (i : nat) (now : Z).

Definition server_step (sv : Server) (t : Turn) : Server :=
  match t with
  | Arrives c =>
      match POST_begin (call_body c) (call_random c) (call_delay_random c) (call_now c)
                       (store sv) with
      | Answers o =>
          mkServer (processedTransactions o) (asleep sv) (answered sv ++ [response o])
      | Awaits w => mkServer (store sv) (asleep sv ++ [w]) (answered sv)
      end
  | Wakes i now =>
      match asleep sv !! i with
      | Some w =>
          let o := POST_resume w now (store sv) in
          mkServer (processedTransactions o) (delete i (asleep sv))
                   (answered sv ++ [response o])
      | None => sv
      end
  end.

Definition server_run (turns : list Turn) (sv : Server) : Server :=
  foldl server_step sv turns.

(** Calls served one by one: each is over before the next arrives. *)
Definition one_by_one (calls : list Call) : list Turn :=
  flat_map (fun c => [Arrives c; Wakes 0 (call_now c)]) calls.

(** A map in which the key K1 has been accepted. *)
Definition one_accepted : gmap string StoredTransaction :=
  {[ "K1" := mkStoredTransaction "a@b.c" 25 1700000000000 ]}.

End Backend.

(** ** The submission ledger and its retry engine (app/page.tsx) *)

Module Ledger.

Inductive TransactionStatus : Type := pending | retrying | success | error.

#[global] Instance TransactionStatus_eq_dec : EqDecision TransactionStatus.
Proof. solve_decision. Defined.

Record Transaction : Type := mkTransaction {
  tx_id : string;
  tx_email : string;
  tx_amount : string;
  tx_status : TransactionStatus;
  tx_timestamp : Z;
}.

(** How one [fetch] settles for the client: the promise rejects (no
    connection), or a response with some HTTP status arrives. *)
Inductive FetchOutcome : Type :=
  | Rejects
  | Responds (code : Z).

(** The network as the page sees it: [net id n] is how the [n]-th request
    of the chain for token [id] settles, [None] when it does not settle for
    as long as the page stays open. *)
Definition Network : Type := string → nat → option FetchOutcome.

(** The calls the engine makes, in the order it makes them. *)
Inductive Effect : Type :=
  | SetStatus (id : string) (status : TransactionStatus)
  | Fetch (tx : Transaction) (attempt : nat)
  | SetTimeout (tx : Transaction) (attempt : nat) (ms : Z).

(** The component: the two form fields, the ledger ([transactions]), the
    [isLoaded] ref, the item 'bhumio-tx-logs', the console and the record
    of calls made so far. *)
Record Page : Type := mkPage {
  email : string;
  amount : string;
  transactions : list Transaction;
  isLoaded : bool;
  tx_logs : stored (list Transaction);
  console : list console_entry;
  effects : list Effect;
}.

Definition initial (logs : stored (list Transaction)) : Page :=
  mkPage "" "" [] false logs [] [].

Definition MAX_RETRIES : nat := 5.
Definition RETRY_DELAY : Z := 2000.

Definition emit (e : Effect) (s : Page) : Page :=
  mkPage (email s) (amount s) (transactions s) (isLoaded s) (tx_logs s)
         (console s) (effects s ++ [e]).

Definition print (line : console_entry) (s : Page) : Page :=
  mkPage (email s) (amount s) (transactions s) (isLoaded s) (tx_logs s)
         (line :: console s) (effects s).

(** The second effect: once loaded, every change of [transactions] is
    written to the item. *)
Definition save_logs (s : Page) : Page :=
  if isLoaded s
  then mkPage (email s) (amount s) (transactions s) (isLoaded s)
              (Saved (transactions s)) (console s) (effects s)
  else s.

Definition setTransactions (update : list Transaction → list Transaction) (s : Page) : Page :=
  save_logs (mkPage (email s) (amount s) (update (transactions s)) (isLoaded s)
                    (tx_logs s) (console s) (effects s)).

(** [{ ...t, status }] *)
Definition with_status (status : TransactionStatus) (t : Transaction) : Transaction :=
  mkTransaction (tx_id t) (tx_email t) (tx_amount t) status (tx_timestamp t).

(** [prev.map((t) => (t.id === id ? { ...t, status } : t))] *)
Definition set_status (id : string) (status : TransactionStatus)
    (prev : list Transaction) : list Transaction :=
  map (fun t => if String.eqb (tx_id t) id then with_status status t else t) prev.

Definition updateTransactionStatus (id : string) (status : TransactionStatus) (s : Page) : Page :=
  setTransactions (set_status id status) (emit (SetStatus id status) s).

(** [response.ok] *)
Definition response_ok (code : Z) : bool := (200 <=? code) && (code <=? 299).

(** The [try] block of [processTransaction] from the moment the request has
    settled. *)
Definition settle (id : string) (o : FetchOutcome) (s : Page) : Page * completion :=
  match o with
  | Rejects => (s, Thrown "TypeError")
  | Responds code =>
      if code =? 503 then (s, Thrown "Error")
      else if response_ok code
      then (updateTransactionStatus id success s, Normal)
      else (updateTransactionStatus id error s, Normal)
  end.

(** The two console lines of the [catch] block. *)
Definition retry_line (tx : Transaction) (attempt : nat) : console_entry :=
  console_log ("[" +:+ tx_id tx +:+ "] Attempt " +:+ pretty attempt
               +:+ " failed. Retrying in " +:+ pretty RETRY_DELAY +:+ "ms...").

Definition give_up_line (tx : Transaction) : console_entry :=
  console_error ("[" +:+ tx_id tx +:+ "] Failed after " +:+ pretty MAX_RETRIES
                 +:+ " attempts.").

(** [processTransaction(tx, attempt)].  The retry is the call made by the
    timer, [RETRY_DELAY] ms after it was set. *)
Equations? processTransaction (net : Network)
    (tx : Transaction) (attempt : nat) (s : Page) : Page
    by wf (MAX_RETRIES - attempt)%nat lt :=
  processTransaction net tx attempt s :=
    let s1 := if (1 <? attempt)%nat
              then updateTransactionStatus (tx_id tx) retrying s
              else s in
    let s2 := emit (Fetch tx attempt) s1 in
    match net (tx_id tx) attempt with
    | None => s2
    | Some o =>
        match settle (tx_id tx) o s2 with
        | (s3, Normal) => s3
        | (s3, Thrown _) =>
            match decide (attempt < MAX_RETRIES)%nat with
            | left _ =>
                let s4 := print (retry_line tx attempt) s3 in
                processTransaction net tx (attempt + 1)
                  (emit (SetTimeout tx (attempt + 1) RETRY_DELAY) s4)
            | right _ =>
                updateTransactionStatus (tx_id tx) error
                  (print (give_up_line tx) s3)
            end
        end
    end.
Proof. lia. Qed.

(** [handleSubmit]: [idempotencyKey] is the value of [crypto.randomUUID()],
    [now] that of [Date.now()]. *)
Definition handleSubmit (net : Network)
    (idempotencyKey : string) (now : Z) (s : Page) : Page :=
  if String.eqb (email s) "" || String.eqb (amount s) "" then s
  else
    let newTransaction := mkTransaction idempotencyKey (email s) (amount s) pending now in
    let s1 := setTransactions (fun prev => newTransaction :: prev) s in
    let s2 := mkPage "" "" (transactions s1) (isLoaded s1) (tx_logs s1)
                     (console s1) (effects s1) in
    processTransaction net newTransaction 1 s2.

(** The form fields as typed by the user. *)
Definition fill (e a : string) (s : Page) : Page :=
  mkPage e a (transactions s) (isLoaded s) (tx_logs s) (console s) (effects s).

(** The entries the resume logic restarts. *)
Definition resumable (tx : Transaction) : bool :=
  bool_decide (tx_status tx = pending) || bool_decide (tx_status tx = retrying).

(** The first effect (load and resume).  It returns the page together with
    the transactions for which it called [processTransaction(tx, 1)]; the
    chains themselves run once the effect is over (see [mount]). *)
Definition load_try (s : Page) : Page * list Transaction * completion :=
  match tx_logs s with
  | Saved parsedLogs =>
      let s1 := setTransactions (fun _ => parsedLogs) s in
      let resumed := filter (fun tx => resumable tx = true) parsedLogs in
      let s2 := foldl (fun acc tx =>
                         print (console_log ("[Resume] Restarting transaction "
                                             +:+ tx_id tx)) acc) s1 resumed in
      (s2, resumed, Normal)
  | _ => (s, [], Thrown "SyntaxError")
  end.

Definition load (s : Page) : Page * list Transaction :=
  let '(s1, resumed) :=
    if truthy_item (tx_logs s)
    then match load_try s with
         | (s', resumed, Normal) => (s', resumed)
         | (s', resumed, Thrown _) =>
             (print (console_error "Failed to parse logs") s', resumed)
         end
    else (s, []) in
  (mkPage (email s1) (amount s1) (transactions s1) true (tx_logs s1)
          (console s1) (effects s1), resumed).

(** A process start: the page is created over what the store holds, the
    two effects run, then the resumed chains.  The chains of different
    tokens are run one after the other. *)
Definition mount (net : Network)
    (logs : stored (list Transaction)) : Page :=
  let '(s1, resumed) := load (initial logs) in
  foldl (fun acc tx => processTransaction net tx 1 acc) (save_logs s1) resumed.

(** The status updates issued for one token, in order. *)
Definition status_updates (id : string) (l : list Effect) : list TransactionStatus :=
  omap (fun e => match e with
                 | SetStatus id' st => if String.eqb id' id then Some st else None
                 | _ => None
                 end) l.

(** The delivery attempts made for one token. *)
Definition attempts (id : string) (l : list Effect) : list nat :=
  omap (fun e => match e with
                 | Fetch tx n => if String.eqb (tx_id tx) id then Some n else None
                 | _ => None
                 end) l.

(** The delays of the retries scheduled for one token. *)
Definition retry_delays (id : string) (l : list Effect) : list Z :=
  omap (fun e => match e with
                 | SetTimeout tx _ ms => if String.eqb (tx_id tx) id then Some ms else None
                 | _ => None
                 end) l.

(** A ledger after a sequence of status updates for one token. *)
Definition replay (id : string) (updates : list TransactionStatus)
    (ledger : list Transaction) : list Transaction :=
  foldl (fun l st => set_status id st l) ledger updates.

(** The page on which the request of [processTransaction(tx, attempt)] is
    sent. *)
Definition sent (tx : Transaction) (attempt : nat) (s : Page) : Page :=
  emit (Fetch tx attempt)
       (if (1 <? attempt)%nat then updateTransactionStatus (tx_id tx) retrying s else s).

(** The calls made between the page [s] and the later page [s']. *)
Definition added (s s' : Page) : list Effect :=
  drop (length (effects s)) (effects s').

(** A failed delivery that the engine retries. *)
Definition transient (o : FetchOutcome) : Prop := o = Rejects ∨ o = Responds 503.



(** *** The load effect over an arbitrary document

    The annotation [Transaction[]] of [parsedLogs] is not checked when the
    page runs: [transactions] receives whatever [JSON.parse] returns. *)

Definition status_name (st : TransactionStatus) : string :=
  match st with
  | pending => "pending"
  | retrying => "retrying"
  | success => "success"
  | error => "error"
  end.

(** The object a transaction is saved as. *)
Definition tx_json (t : Transaction) : json :=
  JObj [ ("id", JStr (tx_id t)); ("email", JStr (tx_email t));
         ("amount", JStr (tx_amount t)); ("status", JStr (status_name (tx_status t)));
         ("timestamp", JNum (inject_Z (tx_timestamp t))) ].

Definition logs_json (l : list Transaction) : json := JArr (tx_json <$> l).

Record RawPage : Type := mkRawPage {
  raw_transactions : json;
  raw_isLoaded : bool;
  raw_resumed : list json;
  raw_console : list console_entry;
}.

(** The page before its effects have run: [useState([])]. *)
Definition raw_initial : RawPage := mkRawPage (JArr []) false [] [].

(** [tx.status === 'pending' || tx.status === 'retrying'] *)
Definition raw_resumable (tx : json) : bool :=
  match get_prop tx "status" with
  | Some (JStr st) => String.eqb st "pending" || String.eqb st "retrying"
  | _ => false
  end.

(** [parsedLogs.forEach(...)] over the elements of an array: the list of
    elements handed to [processTransaction(tx, 1)] and how the loop ends. *)
Fixpoint raw_forEach (items : list json) (resumed : list json) : list json * completion :=
  match items with
  | [] => (resumed, Normal)
  | JNull :: _ => (resumed, Thrown "TypeError")
  | tx :: rest =>
      if raw_resumable tx
      then if to_string_throws (default JNull (get_prop tx "id"))
           then (resumed, Thrown "TypeError")
           else raw_forEach rest (resumed ++ [tx])
      else raw_forEach rest resumed
  end.

(** The load effect on a page whose ledger may hold any document.  Only
    the ledger, the [isLoaded] ref, the restarted elements and the line of
    the [catch] block are recorded. *)
Definition raw_load_try (item : stored json) (s : RawPage) : RawPage * completion :=
  match item with
  | Saved parsedLogs =>
      let s1 := mkRawPage parsedLogs (raw_isLoaded s) (raw_resumed s) (raw_console s) in
      match parsedLogs with
      | JArr items =>
          let '(resumed, c) := raw_forEach items (raw_resumed s1) in
          (mkRawPage (raw_transactions s1) (raw_isLoaded s1) resumed (raw_console s1), c)
      | _ => (s1, Thrown "TypeError")
      end
  | _ => (s, Thrown "SyntaxError")
  end.

Definition raw_load (item : stored json) (s : RawPage) : RawPage :=
  let s1 :=
    if truthy_item item
    then match raw_load_try item s with
         | (s', Normal) => s'
         | (s', Thrown _) =>
             mkRawPage (raw_transactions s') (raw_isLoaded s') (raw_resumed s')
                       (console_error "Failed to parse logs" :: raw_console s')
         end
    else s in
  mkRawPage (raw_transactions s1) true (raw_resumed s1) (raw_console s1).

(** One string per character of a text. *)
Definition characters (s : string) : list json :=
  (fun a => JStr (String a EmptyString)) <$> String.list_ascii_of_string s.

(** The updater of [handleSubmit], [(prev) => [newTransaction, ...prev]]:
    only arrays and strings can be spread. *)
Definition raw_prepend (newTransaction : json) (prev : json) : json * completion :=
  match prev with
  | JArr items => (JArr (newTransaction :: items), Normal)
  | JStr s => (JArr (newTransaction :: characters s), Normal)
  | _ => (prev, Thrown "TypeError")
  end.

(** The calls of one chain that concern its token. *)
Record chain_summary (tx : Transaction) (attempt : nat) (new : list Effect)
    (k : nat) (final : list TransactionStatus) : Prop := {
  summary_retries : (k ≤ MAX_RETRIES - attempt)%nat;
  summary_final : final = [] ∨ final = [success] ∨ final = [error];
  summary_updates :
    status_updates (tx_id tx) new
      = (if (1 <? attempt)%nat then [retrying] else []) ++ replicate k retrying ++ final;
  summary_attempts : attempts (tx_id tx) new = seq attempt (S k);
  summary_delays : retry_delays (tx_id tx) new = replicate k RETRY_DELAY;
}.


(** *** The other handlers *)

(** [clearLogs], [confirmed] being the answer given to [confirm(...)]: the
    ledger is emptied and the item removed; the second effect then writes
    the empty ledger. *)
Definition clearLogs (confirmed : bool) (s : Page) : Page :=
  if confirmed
  then setTransactions (fun _ => [])
         (mkPage (email s) (amount s) (transactions s) (isLoaded s) NoItem
                 (console s) (effects s))
  else s.

(** What the user does on the mounted page. *)
Inductive UserAction : Type :=
  | TypeIn (e a : string)
  | Submit (idempotencyKey : string) (now : Z)
  | Clear (confirmed : bool).

Definition perform (net : Network) (s : Page) (a : UserAction) : Page :=
  match a with
  | TypeIn e a => fill e a s
  | Submit idempotencyKey now => handleSubmit net idempotencyKey now s
  | Clear confirmed => clearLogs confirmed s
  end.

(** A whole run of the page: a process start over the stored item, then
    the user's actions. *)
Definition session (net : Network) (logs : stored (list Transaction))
    (actions : list UserAction) : Page :=
  foldl (perform net) (mount net logs) actions.

(** What a chain may change in an entry of the ledger. *)
Definition same_operation (id : string) (t t' : Transaction) : Prop :=
  tx_id t' = tx_id t ∧ tx_email t' = tx_email t ∧ tx_amount t' = tx_amount t
  ∧ tx_timestamp t' = tx_timestamp t ∧ (tx_id t ≠ id → t' = t).

(** The status the engine records for an answer that is not a 503. *)
Definition verdict (code : Z) : TransactionStatus :=
  if response_ok code then success else error.

(** On a loaded page the item always holds the ledger. *)
Definition in_sync (s : Page) : Prop :=
  isLoaded s = true ∧ tx_logs s = Saved (transactions s).

(** *** Operations over a whole run *)










(** *** A scenario across a restart *)


Definition always_503 : Network := fun _ _ => Some (Responds 503).

(** 503 twice, then 200: the scenario of the specification. *)
Definition third_time_lucky : Network :=
  fun _ n => if (n <? 3)%nat then Some (Responds 503) else Some (Responds 200).

(** The operation of token K1 as entered, and a saved ledger in which it
    is [retrying] next to a completed one. *)
Definition k1 : Transaction :=
  mkTransaction "K1" "a@b.c" "12.50" pending 1700000000000.

Definition saved_ledger : list Transaction :=
  [ with_status retrying k1;
    mkTransaction "K0" "c@d.e" "7" success 1600000000000 ].



(** Four 503 answers, then a request in flight when the page is closed. *)
Definition closed_on_fifth : Network :=
  fun _ n => if (n <? 5)%nat then Some (Responds 503) else None.

(** A run that is closed while the fifth request is in flight, and the run
    that follows it, with the service still unavailable. *)
Definition interrupted_run : Page :=
  handleSubmit closed_on_fifth "K1" 1700000000000
    (fill "a@b.c" "12.50" (mount closed_on_fifth NoItem)).

Definition reopened_run : Page := mount always_503 (tx_logs interrupted_run).

(** A page whose ledger holds the operation K1 next to a completed one. *)
Definition open_page : Page :=
  mkPage "" "" [k1; mkTransaction "K0" "c@d.e" "7" success 1600000000000] true
         (Saved [k1; mkTransaction "K0" "c@d.e" "7" success 1600000000000]) [] [].

(** A saved ledger in which two live entries carry the same token. *)
Definition repeated_ledger : list Transaction :=
  [ with_status retrying k1; with_status pending k1 ].

End Ledger.

(** ** The client's chain against the backend *)

Module EndToEnd.

Section Wire.

(** [parseFloat] of the browser on the amount as typed; [None] when the
    result is [NaN], which [JSON.stringify] writes as [null]. *)
Variable parseFloat : string → option Q.

(** The body [processTransaction] sends for [tx]. *)
Definition request_of (tx : Ledger.Transaction) : Backend.RequestBody :=
  Backend.Fields (Some (Ledger.tx_email tx)) (parseFloat (Ledger.tx_amount tx))
                 (Some (Ledger.tx_id tx)).

(** What the handler draws and reads from its clock when the [n]-th
    request of the chain arrives. *)
Record Draws : Type := mkDraws {
  random_of : nat → Q;
  delay_random_of : nat → Q;
  now_of : nat → Z;
}.

Definition call_of (tx : Ledger.Transaction) (dr : Draws) (n : nat) : Backend.Call :=
  Backend.mkCall (request_of tx) (random_of dr n) (delay_random_of dr n) (now_of dr n).

(** The network when every request of the chain of [tx] reaches the
    handler and its answer comes back; [db] is the handler's map when the
    chain starts. *)
Definition backend_net (db : gmap string Backend.StoredTransaction) (dr : Draws)
    (tx : Ledger.Transaction) : Ledger.Network :=
  fun _ n =>
    Some (Ledger.Responds
            (Backend.http_status (Backend.response (Backend.handle db (call_of tx dr n))))).

(** The calls the handler has served when the chain is over. *)
Definition calls_of (tx : Ledger.Transaction) (dr : Draws) (s s' : Ledger.Page)
    : list Backend.Call :=
  call_of tx dr <$> Ledger.attempts (Ledger.tx_id tx) (Ledger.added s s').

End Wire.

End EndToEnd.

(** ** Quirky pagination: the GET handler and the deduplicating client *)

Module Pagination.

Inductive Category : Type := Space | Species | Tech.

Record Fact : Type := mkFact {
  f_id : string;
  category : Category;
  title : string;
  description : string;
}.

(** *** The server side *)

Definition SUBJECTS : list string :=
  ["The Quantum Computer"; "A Mars Rover"; "The Human DNA"; "Dark Matter";
   "An AI Algorithm"; "The Blue Whale"; "A Neutron Star"; "The Space Station";
   "Genetic Editing"; "Virtual Reality"].
Definition VERBS : list string :=
  ["analyzes"; "calculates"; "discovers"; "simulates"; "orbits"; "consumes";
   "transforms"; "decodes"; "navigates"; "transmits"].
Definition ADJECTIVES : list string :=
  ["complex"; "infinite"; "microscopic"; "ancient"; "glowing"; "radioactive";
   "digital"; "frozen"; "intelligent"; "silent"].
Definition OBJECTS : list string :=
  ["data streams"; "star clusters"; "neural networks"; "cosmic dust";
   "deep sea trenches"; "encryption keys"; "solar flares"; "alien signals";
   "genetic sequences"; "quantum bits"].

(** [WORDS[index % WORDS.length]] *)
Definition pick (words : list string) (index : nat) : string :=
  default "" (words !! (index mod length words)%nat).

Definition generateFact (index : nat) : string :=
  pick SUBJECTS index +:+ " " +:+ pick VERBS (index + 2) +:+ " "
    +:+ pick ADJECTIVES (index + 5) +:+ " " +:+ pick OBJECTS (index + 3)
    +:+ " in a way that defies current physics.".

Definition categories : list Category := [Space; Species; Tech].

(** The record built for index [i]; its [timestamp] is not part of the
    client's [Fact] and is left out. *)
Definition fact_at (i : nat) : Fact :=
  mkFact ("unique-record-" +:+ pretty (i + 1000)%nat)
         (default Space (categories !! (i mod 3)%nat))
         ("Insight #" +:+ pretty (i + 1)%nat +:+ ": " +:+ pick SUBJECTS i)
         (generateFact i).

Definition FACTS_DB : list Fact := fact_at <$> seq 0 50.

Definition PAGE_SIZE : Z := 10.

(** [Array.prototype.slice(start, end)] with its treatment of negative and
    out-of-range indices. *)
Definition relative_index (len k : Z) : Z :=
  if k <? 0 then Z.max (len + k) 0 else Z.min k len.

Definition slice {A} (l : list A) (start end_ : Z) : list A :=
  let len := Z.of_nat (length l) in
  let from := relative_index len start in
  let to := relative_index len end_ in
  take (Z.to_nat (to - from)) (drop (Z.to_nat from) l).

Definition Qgtb (x y : Q) : bool := negb (Qle_bool x y).

(** The literals 0.7 and 0.6 as the doubles they denote. *)
Definition lit_0_7 : Q := 6305039478318694 # 9007199254740992.
Definition lit_0_6 : Q := 5404319552844595 # 9007199254740992.

(** [GET]: [page] is the parsed query parameter, [shrink_random] and
    [overlap_random] the two values of [Math.random()]. *)
Definition GET (page : Z) (shrink_random overlap_random : Q) : list Fact :=
  let start := (page - 1) * PAGE_SIZE in
  let end_ := start + PAGE_SIZE in
  if start >=? Z.of_nat (length FACTS_DB) then []
  else
    let result := slice FACTS_DB start end_ in
    let result :=
      if (Z.of_nat (length result) =? PAGE_SIZE) && Qgtb shrink_random lit_0_7
      then slice result 0 7
      else result in
    if (page >? 1) && Qgtb overlap_random lit_0_6
    then slice FACTS_DB (start - 2) start ++ result
    else result.

(** *** The client side *)

Inductive Status : Type := idle | loading | error | finished.

Record Page : Type := mkPage {
  items : list Fact;
  page : Z;
  status : Status;
  seenIds : gset string;
}.

Definition initial : Page := mkPage [] 1 idle ∅.

(** How the request of one [fetchPage] call ends. *)
Inductive FetchOutcome : Type :=
  | Aborted
  | Failed
  | Batch (newBatch : list Fact).

(** One turn of the [forEach] of the deduplication block, on the pair
    ([uniqueItems], [seenIds.current]). *)
Definition dedupe_item (acc : list Fact * gset string) (item : Fact)
    : list Fact * gset string :=
  if decide (f_id item ∈ acc.2)
  then acc
  else (acc.1 ++ [item], {[f_id item]} ∪ acc.2).

Definition dedupe (newBatch : list Fact) (seen : gset string)
    : list Fact * gset string :=
  foldl dedupe_item ([], seen) newBatch.

(** [fetchPage] up to the request ... *)
Definition fetchPage_begin (s : Page) : Page :=
  mkPage (items s) (page s) loading (seenIds s).

(** ... and from the moment the request has ended. *)
Definition fetchPage_settle (o : FetchOutcome) (s : Page) : Page :=
  match o with
  | Aborted => s
  | Failed => mkPage (items s) (page s) error (seenIds s)
  | Batch [] => mkPage (items s) (page s) finished (seenIds s)
  | Batch newBatch =>
      let '(uniqueItems, seen) := dedupe newBatch (seenIds s) in
      mkPage (items s ++ uniqueItems) (page s) idle seen
  end.

Definition handleLoadMore (s : Page) : Page :=
  let nextPage := page s + 1 in
  fetchPage_begin (mkPage (items s) nextPage (status s) (seenIds s)).

(** What can happen to the mounted component. *)
Inductive Action : Type :=
  | Mount
  | LoadMore
  | Retry
  | Settle (o : FetchOutcome).

Definition act (s : Page) (a : Action) : Page :=
  match a with
  | Mount | Retry => fetchPage_begin s
  | LoadMore => handleLoadMore s
  | Settle o => fetchPage_settle o s
  end.

Definition run (actions : list Action) : Page := foldl act initial actions.

(** The client walking the pages 1 to 5 in order, each answered by the
    handler: [draws] gives, page by page, the handler's two random values. *)
Definition walk (draws : list (Q * Q)) : list Action :=
  Mount ::
  flat_map (fun '(i, (shrink_random, overlap_random)) =>
              (if (i =? 0)%nat then [] else [LoadMore])
              ++ [Settle (Batch (GET (Z.of_nat i + 1) shrink_random overlap_random))])
           (imap (fun i d => (i, d)) draws).

(** What the client keeps true: the ids of the list are pairwise distinct
    and every one of them is in the seen-id set. *)
Definition deduplicated (l : list Fact) (seen : gset string) : Prop :=
  NoDup (f_id <$> l) ∧ ∀ x, x ∈ l → f_id x ∈ seen.

End Pagination.

(** * Proofs *)

(** A list whose images under [f] are pairwise distinct has at most one
    element with a given image. *)
Lemma fmap_NoDup_inj {A B} (f : A → B) (l : list A) (x y : A) :
  NoDup (f <$> l) → x ∈ l → y ∈ l → f x = f y → x = y.
Proof.
  induction l as [|a l IH]; intros Hnd Hx Hy Hf; [by apply elem_of_nil in Hx|].
  rewrite fmap_cons in Hnd. apply NoDup_cons in Hnd as [Ha Hnd].
  apply elem_of_cons in Hx as [->|Hx]; apply elem_of_cons in Hy as [->|Hy].
  - done.
  - exfalso. apply Ha. rewrite Hf. by apply list_elem_of_fmap_2.
  - exfalso. apply Ha. rewrite <- Hf. by apply list_elem_of_fmap_2.
  - by apply IH.
Qed.

(** * Properties of the reconciler *)

Module ReconcilerProofs.
Import Reconciler.

Lemma processEvent_stateMap (e : ServerEvent) (s : Page) :
  stateMap (processEvent e s) =
    if is_late (stateMap s !! ev_id e) e
    then stateMap s
    else <[ev_id e := snapshot_of e]> (stateMap s).
Proof.
  unfold processEvent, saveToStorage; simpl.
  destruct (is_late _ _); [done|]. simpl. by destruct (isLoaded s).
Qed.

Lemma processEvent_other (e : ServerEvent) (s : Page) (k : string) :
  k ≠ ev_id e → stateMap (processEvent e s) !! k = stateMap s !! k.
Proof.
  intros Hk. rewrite processEvent_stateMap.
  destruct (is_late _ _); [done|]. by rewrite lookup_insert_ne.
Qed.

Lemma deliver_snoc (l : list ServerEvent) (e : ServerEvent) (s : Page) :
  deliver (l ++ [e]) s = processEvent e (deliver l s).
Proof. unfold deliver. by rewrite foldl_app. Qed.

Lemma is_late_true (r : ItemState) (e : ServerEvent) :
  is_late (Some r) e = true ↔ ev_timestamp e ≤ it_lastUpdated r.
Proof. simpl. rewrite Z.geb_le. lia. Qed.

Lemma is_late_false (r : ItemState) (e : ServerEvent) :
  is_late (Some r) e = false ↔ it_lastUpdated r < ev_timestamp e.
Proof.
  simpl. destruct (Z.geb_spec (it_lastUpdated r) (ev_timestamp e)); split; (lia || done).
Qed.

(** After a non-empty run of events of one entity, starting without a
    snapshot, the map holds the snapshot of an event of maximal timestamp. *)
Lemma deliver_holds_a_maximum (eid : string) (l : list ServerEvent) (s : Page) :
  Forall (fun e => ev_id e = eid) l →
  stateMap s !! eid = None →
  l ≠ [] →
  ∃ e, e ∈ l ∧ (∀ e', e' ∈ l → ev_timestamp e' ≤ ev_timestamp e)
       ∧ stateMap (deliver l s) = <[eid := snapshot_of e]> (stateMap s).
Proof.
  intros Hids Hnone. induction l as [|x l IH] using rev_ind; [done|]. intros _.
  apply Forall_app in Hids as [Hl Hx]. apply Forall_inv in Hx. simpl in Hx.
  pose proof (processEvent_stateMap x (deliver l s)) as Hstep.
  rewrite <- deliver_snoc, Hx in Hstep.
  destruct (decide (l = [])) as [->|Hne].
  - simpl in Hstep. rewrite Hnone in Hstep. simpl in Hstep.
    exists x. split; [by apply list_elem_of_singleton|]. split; [|done].
    intros e' He'. apply list_elem_of_singleton in He'. by subst.
  - destruct (IH Hl Hne) as (e & Hin & Hmax & Hmap).
    rewrite Hmap, lookup_insert_eq in Hstep.
    destruct (is_late (Some (snapshot_of e)) x) eqn:Hlate.
    + apply is_late_true in Hlate. simpl in Hlate.
      exists e. split; [apply elem_of_app; by left|]. split; [|done].
      intros e' He'. apply elem_of_app in He' as [He'|He']; [by apply Hmax|].
      apply list_elem_of_singleton in He'. by subst.
    + apply is_late_false in Hlate. simpl in Hlate.
      exists x. split; [apply elem_of_app; right; by apply list_elem_of_singleton|].
      split; [|by rewrite Hstep, insert_insert_eq].
      intros e' He'. apply elem_of_app in He' as [He'|He'].
      * specialize (Hmax e' He'). lia.
      * apply list_elem_of_singleton in He'. by subst.
Qed.

Lemma deliver_cons (e : ServerEvent) (l : list ServerEvent) (s : Page) :
  deliver (e :: l) s = deliver l (processEvent e s).
Proof. done. Qed.

(** Events that are not newer than the stored snapshot leave it in place. *)
Lemma deliver_stale_keeps (k : string) (r : ItemState) (l : list ServerEvent) (s : Page) :
  stateMap s !! k = Some r →
  (∀ e, e ∈ l → ev_id e = k → ev_timestamp e ≤ it_lastUpdated r) →
  stateMap (deliver l s) !! k = Some r.
Proof.
  revert s. induction l as [|x l IH]; intros s Hr Hstale; [done|].
  rewrite deliver_cons. apply IH.
  - destruct (decide (k = ev_id x)) as [->|Hk].
    + rewrite processEvent_stateMap, Hr.
      assert (is_late (Some r) x = true) as ->; [|done].
      apply is_late_true, Hstale; [apply elem_of_cons; by left|done].
    + by rewrite processEvent_other.
  - intros e He. apply Hstale, elem_of_cons. by right.
Qed.

(** Whatever was stored before, applying an event leaves a snapshot that is
    at least as recent as the event. *)
Lemma processEvent_at_least (e : ServerEvent) (s : Page) :
  ∃ r, stateMap (processEvent e s) !! ev_id e = Some r
       ∧ ev_timestamp e ≤ it_lastUpdated r.
Proof.
  rewrite processEvent_stateMap.
  destruct (stateMap s !! ev_id e) as [r|] eqn:Hr.
  - destruct (is_late (Some r) e) eqn:Hlate.
    + exists r. split; [done|]. by apply is_late_true.
    + exists (snapshot_of e). rewrite lookup_insert_eq. by split.
  - simpl. exists (snapshot_of e). rewrite lookup_insert_eq. by split.
Qed.

(** C1. Reconciliation monotonicity: for a non-empty set of events of one
    entity with pairwise distinct timestamps, delivered in any order to a map
    that has no snapshot for the entity, the final snapshot is the one built
    from the event with the maximum timestamp: it carries the entity's id
    and that event's timestamp, type and payload (and nothing else in the
    map is touched). *)
Theorem reconciliation_order_independent
    (eid : string) (events : list ServerEvent) (s : Page) :
  events ≠ [] →
  Forall (fun e => ev_id e = eid) events →
  NoDup (ev_timestamp <$> events) →
  stateMap s !! eid = None →
  ∃ emax, emax ∈ events
    ∧ (∀ e, e ∈ events → ev_timestamp e ≤ ev_timestamp emax)
    ∧ ∀ order, order ≡ₚ events →
        stateMap (deliver order s) !! eid
          = Some (mkItemState eid (ev_timestamp emax) (ev_type emax) (ev_payload emax))
        ∧ stateMap (deliver order s)
          = <[eid := mkItemState eid (ev_timestamp emax) (ev_type emax) (ev_payload emax)]>
              (stateMap s).
Proof.
  intros Hne Hids Hnd Hnone.
  destruct (deliver_holds_a_maximum eid events s Hids Hnone Hne)
    as (emax & Hin & Hmax & _).
  exists emax. split; [done|]. split; [done|]. intros order Hperm.
  assert (order ≠ []) as Hne'.
  { intros ->. by apply Permutation_nil_l in Hperm. }
  assert (Forall (fun e => ev_id e = eid) order) as Hids' by by rewrite Hperm.
  destruct (deliver_holds_a_maximum eid order s Hids' Hnone Hne')
    as (e & Hin' & Hmax' & Hmap).
  assert (e = emax) as ->.
  { rewrite Hperm in Hin'. apply (fmap_NoDup_inj ev_timestamp events); [done..|].
    specialize (Hmax e Hin'). specialize (Hmax' emax).
    rewrite Hperm in Hmax'. specialize (Hmax' Hin). lia. }
  assert (snapshot_of emax
          = mkItemState eid (ev_timestamp emax) (ev_type emax) (ev_payload emax)) as Hsnap.
  { unfold snapshot_of. f_equal. by apply (proj1 (Forall_forall _ _) Hids). }
  rewrite <- Hsnap. split; [|done]. by rewrite Hmap, lookup_insert_eq.
Qed.

(** C2. One apply replaces the snapshot of the event's entity exactly when
    there is none or the event is strictly newer, and the snapshot it stores
    carries the event's id, timestamp, type and payload; an event that is
    older or of equal timestamp is discarded: the map and the persisted
    entries stay as they are, and the only trace is an ordinary console
    line. *)
Theorem processEvent_replaces_iff_newer (e : ServerEvent) (s : Page) :
  (stateMap s !! ev_id e = None
   ∨ (∃ r, stateMap s !! ev_id e = Some r ∧ it_lastUpdated r < ev_timestamp e) →
     stateMap (processEvent e s)
       = <[ev_id e := mkItemState (ev_id e) (ev_timestamp e) (ev_type e) (ev_payload e)]>
           (stateMap s)
     ∧ stateMap (processEvent e s) !! ev_id e
       = Some (mkItemState (ev_id e) (ev_timestamp e) (ev_type e) (ev_payload e))
     ∧ console (processEvent e s) = console s)
  ∧ (∀ r, stateMap s !! ev_id e = Some r → ev_timestamp e ≤ it_lastUpdated r →
     stateMap (processEvent e s) = stateMap s
     ∧ stateMap (processEvent e s) !! ev_id e = Some r
     ∧ orders_db (processEvent e s) = orders_db s
     ∧ console (processEvent e s)
       = console_log ("[Ignored] Late event for " +:+ ev_id e) :: console s).
Proof.
  split.
  - intros Hfresh.
    assert (is_late (stateMap s !! ev_id e) e = false) as Hlate.
    { destruct Hfresh as [-> | (r & -> & Hlt)]; [done|]. by apply is_late_false. }
    assert (stateMap (processEvent e s)
            = <[ev_id e := mkItemState (ev_id e) (ev_timestamp e) (ev_type e) (ev_payload e)]>
                (stateMap s)) as Hmap.
    { by rewrite processEvent_stateMap, Hlate. }
    split; [done|]. split; [by rewrite Hmap, lookup_insert_eq|].
    unfold processEvent, saveToStorage. simpl. rewrite Hlate. simpl.
    by destruct (isLoaded s).
  - intros r Hr Hle. apply is_late_true in Hle.
    assert (stateMap (processEvent e s) = stateMap s) as Hmap.
    { by rewrite processEvent_stateMap, Hr, Hle. }
    split; [done|]. split; [by rewrite Hmap|].
    unfold processEvent. simpl. rewrite Hr. by rewrite Hle.
Qed.


Example scenario_final_snapshot :
  stateMap (deliver scenario_delivery (hydrate (initial NoItem))) !! "A"
    = Some (mkItemState "A" 110 updated "Order A - SHIPPED").
Proof. vm_compute. reflexivity. Qed.

Lemma reconciliation_order_independent_witness :
  stateMap (deliver scenario_delivery (initial NoItem)) !! "A"
    = Some (mkItemState "A" 110 updated "Order A - SHIPPED").
Proof.
  destruct (reconciliation_order_independent "A" scenario_events (initial NoItem))
    as (emax & Hin & Hmax & Hall).
  - discriminate.
  - repeat constructor.
  - apply (bool_decide_unpack _). vm_compute. exact I.
  - reflexivity.
  - assert (emax = mkServerEvent "A" 110 updated "Order A - SHIPPED") as ->.
    { assert (mkServerEvent "A" 110 updated "Order A - SHIPPED" ∈ scenario_events)
        as Hlast by (do 2 (apply elem_of_cons; right); apply elem_of_cons; by left).
      specialize (Hmax _ Hlast). unfold scenario_events in Hin.
      repeat (apply elem_of_cons in Hin as [-> | Hin]); simpl in Hmax;
        [lia|lia|reflexivity|by apply elem_of_nil in Hin]. }
    apply Hall. unfold scenario_delivery, scenario_events.
    eapply perm_trans; [apply perm_swap|]. apply perm_skip, perm_swap.
Defined.

Lemma processEvent_replaces_iff_newer_witness :
  stateMap (processEvent tombstone (initial NoItem)) !! "A"
    = Some (mkItemState "A" 110 deleted "Order A - CANCELLED")
  ∧ stateMap (processEvent (mkServerEvent "A" 110 updated "late")
                (processEvent tombstone (initial NoItem))) !! "A"
    = Some (mkItemState "A" 110 deleted "Order A - CANCELLED").
Proof.
  split.
  - apply (proj1 (processEvent_replaces_iff_newer tombstone (initial NoItem))).
    left. reflexivity.
  - apply (proj2 (processEvent_replaces_iff_newer
                    (mkServerEvent "A" 110 updated "late")
                    (processEvent tombstone (initial NoItem)))
             (mkItemState "A" 110 deleted "Order A - CANCELLED")).
    + vm_compute. reflexivity.
    + simpl. lia.
Defined.


End ReconcilerProofs.

(** * Properties of the idempotency backend *)

Module BackendProofs.
Import Backend.

(** Every path of the handler either leaves the map alone or records the
    request's key together with a 200 'recorded' answer. *)
Lemma POST_store_cases (req : RequestBody) (random delay_random : Q) (now : Z)
    (db : gmap string StoredTransaction) :
  processedTransactions (POST req random delay_random now db) = db
  ∨ ∃ k tx, key_of req = Some k ∧ db !! k = None
      ∧ processedTransactions (POST req random delay_random now db) = <[k := tx]> db
      ∧ response (POST req random delay_random now db)
        = mkResponse 200 (SuccessBody "Transaction recorded successfully" "success" k).
Proof.
  destruct req as [| |email amount key]; simpl; [by left..|].
  destruct (falsy_string email || falsy_number amount || falsy_string key) eqn:Hv;
    [by left|].
  case_bool_decide as Hin; [by left|].
  destruct (Qltb random lit_0_3); [by left|]. right.
  destruct key as [k|]; [|by rewrite !orb_true_r in Hv]. simpl in *.
  eexists k, _. repeat split.
  destruct (db !! k) eqn:Hk; [|done]. destruct Hin. by eexists.
Qed.

(** C6, as the code has it. A request that passes the basic validation and
    whose key is already recorded gets the cached success (200, 'Transaction
    already processed') and the map is not touched; and whenever the answer
    is not a 200 (the 400, 503 and 500 paths) the map is left as it was, so
    a rejected key is not recorded. *)
Theorem replay_returns_cached_success
    (req : RequestBody) (random delay_random : Q) (now : Z)
    (db : gmap string StoredTransaction) :
  (∀ email amount k,
     req = Fields (Some email) (Some amount) (Some k) →
     email ≠ "" → ¬ (amount == 0)%Q → k ≠ "" → is_Some (db !! k) →
     POST req random delay_random now db
       = mkOutcome db
           (mkResponse 200 (SuccessBody "Transaction already processed" "success" k))
           None)
  ∧ (http_status (response (POST req random delay_random now db)) ≠ 200 →
     processedTransactions (POST req random delay_random now db) = db).
Proof.
  split.
  - intros email amount k -> He Ha Hk Hin. simpl.
    assert ((email =? "")%string = false) as -> by by apply String.eqb_neq.
    assert ((k =? "")%string = false) as -> by by apply String.eqb_neq.
    assert (Qeq_bool amount 0 = false) as ->.
    { destruct (Qeq_bool amount 0) eqn:Hq; [|done]. by apply Qeq_bool_eq in Hq. }
    simpl. by rewrite bool_decide_eq_true_2.
  - intros Hstatus.
    destruct (POST_store_cases req random delay_random now db)
      as [Hsame|(k & tx & _ & _ & _ & Hresp)]; [done|].
    by rewrite Hresp in Hstatus.
Qed.


(** C6 as stated fails: a request carrying the recorded key K1 but the
    amount 0 is stopped by the validation that precedes the idempotency
    check, and is answered 400. *)
Lemma recorded_key_with_zero_amount_gets_400 :
  ¬ (∀ (req : RequestBody) (k : string) (random delay_random : Q) (now : Z)
       (db : gmap string StoredTransaction),
       key_of req = Some k → is_Some (db !! k) →
       response (POST req random delay_random now db)
         = mkResponse 200 (SuccessBody "Transaction already processed" "success" k)).
Proof.
  intros Hclaim.
  specialize (Hclaim (Fields (Some "a@b.c") (Some 0%Q) (Some "K1")) "K1"
                     0%Q 0%Q 1700000000001 one_accepted eq_refl).
  assert (is_Some (one_accepted !! "K1")) as Hin by (vm_compute; by eexists).
  specialize (Hclaim Hin). vm_compute in Hclaim. discriminate.
Qed.

Lemma replay_returns_cached_success_witness :
  POST (Fields (Some "a@b.c") (Some 25%Q) (Some "K1")) 0%Q 0%Q 1700000000001 one_accepted
    = mkOutcome one_accepted
        (mkResponse 200 (SuccessBody "Transaction already processed" "success" "K1"))
        None
  ∧ processedTransactions
      (POST (Fields (Some "a@b.c") (Some 25%Q) (Some "K2")) 0%Q 0%Q 1700000000001 one_accepted)
    = one_accepted.
Proof.
  split.
  - apply (proj1 (replay_returns_cached_success
                    (Fields (Some "a@b.c") (Some 25%Q) (Some "K1"))
                    0%Q 0%Q 1700000000001 one_accepted) "a@b.c" 25%Q "K1").
    + reflexivity.
    + discriminate.
    + intros Hq. vm_compute in Hq. discriminate.
    + discriminate.
    + vm_compute. by eexists.
  - apply (proj2 (replay_returns_cached_success
                    (Fields (Some "a@b.c") (Some 25%Q) (Some "K2"))
                    0%Q 0%Q 1700000000001 one_accepted)).
    vm_compute. discriminate.
Defined.


End BackendProofs.

(** * Properties of the pagination client *)

Module PaginationProofs.
Import Pagination.

Lemma dedupe_item_keeps (prev : list Fact) (acc : list Fact * gset string) (item : Fact) :
  deduplicated (prev ++ acc.1) acc.2 →
  deduplicated (prev ++ (dedupe_item acc item).1) (dedupe_item acc item).2.
Proof.
  intros [Hnd Hseen]. unfold dedupe_item. case_decide as Hin; [done|]. simpl.
  rewrite app_assoc. split.
  - rewrite fmap_app. simpl. apply NoDup_app. split; [done|].
    split; [|apply NoDup_singleton].
    intros i Hi Hi'. apply list_elem_of_singleton in Hi' as ->.
    apply list_elem_of_fmap in Hi as (x & Hx & Hxin).
    apply Hin. rewrite Hx. by apply Hseen.
  - intros x Hx. apply elem_of_app in Hx as [Hx|Hx].
    + apply elem_of_union. right. by apply Hseen.
    + apply list_elem_of_singleton in Hx as ->.
      apply elem_of_union. left. by apply elem_of_singleton.
Qed.

Lemma foldl_dedupe_keeps (prev newBatch : list Fact) (acc : list Fact * gset string) :
  deduplicated (prev ++ acc.1) acc.2 →
  deduplicated (prev ++ (foldl dedupe_item acc newBatch).1)
               (foldl dedupe_item acc newBatch).2.
Proof.
  revert acc. induction newBatch as [|item rest IH]; intros acc Hacc; [done|].
  simpl. by apply IH, dedupe_item_keeps.
Qed.

Lemma fetchPage_settle_keeps (o : FetchOutcome) (s : Page) :
  deduplicated (items s) (seenIds s) →
  deduplicated (items (fetchPage_settle o s)) (seenIds (fetchPage_settle o s)).
Proof.
  intros Hs. destruct o as [| |newBatch]; [done..|].
  destruct newBatch as [|item rest]; [done|].
  unfold fetchPage_settle.
  pose proof (foldl_dedupe_keeps (items s) (item :: rest) ([], seenIds s)) as Hb.
  fold (dedupe (item :: rest) (seenIds s)) in Hb.
  destruct (dedupe (item :: rest) (seenIds s)) as [uniqueItems seen].
  simpl in *. apply Hb. by rewrite app_nil_r.
Qed.

Lemma act_keeps (s : Page) (a : Action) :
  deduplicated (items s) (seenIds s) →
  deduplicated (items (act s a)) (seenIds (act s a)).
Proof. destruct a; [done..|]. apply fetchPage_settle_keeps. Qed.

(** C9. Whatever the sequence of page requests and of batches received
    (overlapping, shortened, repeated), the accumulated list never holds two
    facts with the same id; every id in the list is in the seen-id set,
    which is what filters a batch before it is appended. *)
Theorem items_have_unique_ids (actions : list Action) :
  NoDup (f_id <$> items (run actions))
  ∧ ∀ x, x ∈ items (run actions) → f_id x ∈ seenIds (run actions).
Proof.
  change (deduplicated (items (run actions)) (seenIds (run actions))).
  unfold run. induction actions as [|a actions IH] using rev_ind.
  - split; [constructor|]. intros x Hx. by apply elem_of_nil in Hx.
  - rewrite foldl_app. simpl. by apply act_keeps.
Qed.

(** The handler's overlap at work: page 2 served with the two last records
    of page 1 in front; the client ends with the first twenty records. *)
Example overlap_is_filtered :
  f_id <$> GET 2 0 1 = f_id <$> (fact_at <$> seq 8 12)
  ∧ items (run [Mount; Settle (Batch (GET 1 0 0)); LoadMore; Settle (Batch (GET 2 0 1))])
    = fact_at <$> seq 0 20.
Proof. split; vm_compute; reflexivity. Qed.

End PaginationProofs.

(** * Properties of the submission ledger *)

Module LedgerProofs.
Import Ledger.

(** *** The record of calls *)

Lemma effects_emit (e : Effect) (s : Page) : effects (emit e s) = effects s ++ [e].
Proof. done. Qed.

Lemma effects_print (line : console_entry) (s : Page) : effects (print line s) = effects s.
Proof. done. Qed.

Lemma effects_setTransactions (f : list Transaction → list Transaction) (s : Page) :
  effects (setTransactions f s) = effects s.
Proof. unfold setTransactions, save_logs. simpl. by destruct (isLoaded s). Qed.

Lemma effects_update (id : string) (st : TransactionStatus) (s : Page) :
  effects (updateTransactionStatus id st s) = effects s ++ [SetStatus id st].
Proof. unfold updateTransactionStatus. by rewrite effects_setTransactions. Qed.

Lemma transactions_setTransactions (f : list Transaction → list Transaction) (s : Page) :
  transactions (setTransactions f s) = f (transactions s).
Proof. unfold setTransactions, save_logs. simpl. by destruct (isLoaded s). Qed.

(** After [updateTransactionStatus id st], every entry of that id has the
    status [st], and the other entries are as before. *)
Lemma status_after_update (id : string) (st : TransactionStatus) (s : Page) (t : Transaction) :
  t ∈ transactions (updateTransactionStatus id st s) →
  (tx_id t = id → tx_status t = st)
  ∧ (tx_id t ≠ id → t ∈ transactions s).
Proof.
  unfold updateTransactionStatus. rewrite transactions_setTransactions. simpl.
  unfold set_status. intros Ht. apply list_elem_of_fmap in Ht as (t0 & -> & Hin).
  destruct (String.eqb_spec (tx_id t0) id) as [Heq|Hne]; simpl.
  - split; [done|]. intros Hne. by destruct Hne.
  - split; [intros Heq; by destruct Hne|done].
Qed.

Lemma added_app (s s' : Page) (new : list Effect) :
  effects s' = effects s ++ new → added s s' = new.
Proof. intros H. unfold added. rewrite H. apply drop_app_length. Qed.

Lemma status_updates_app (id : string) (l1 l2 : list Effect) :
  status_updates id (l1 ++ l2) = status_updates id l1 ++ status_updates id l2.
Proof. apply omap_app. Qed.

Lemma attempts_app (id : string) (l1 l2 : list Effect) :
  attempts id (l1 ++ l2) = attempts id l1 ++ attempts id l2.
Proof. apply omap_app. Qed.

Lemma retry_delays_app (id : string) (l1 l2 : list Effect) :
  retry_delays id (l1 ++ l2) = retry_delays id l1 ++ retry_delays id l2.
Proof. apply omap_app. Qed.

(** *** One attempt *)

Lemma settle_transient (id : string) (o : FetchOutcome) (s : Page) :
  transient o → ∃ name, settle id o s = (s, Thrown name).
Proof. intros [-> | ->]; simpl; by eexists. Qed.

Lemma settle_cases (id : string) (o : FetchOutcome) (s : Page) :
  (∃ name, settle id o s = (s, Thrown name))
  ∨ (∃ st, (st = success ∨ st = error)
           ∧ settle id o s = (updateTransactionStatus id st s, Normal)).
Proof.
  destruct o as [|code]; simpl; [left; by eexists|].
  destruct (code =? 503); [left; by eexists|].
  destruct (response_ok code); right; eexists; (split; [|done]); auto.
Qed.

Lemma processTransaction_unsettled (net : Network) (tx : Transaction) (attempt : nat) (s : Page) :
  net (tx_id tx) attempt = None →
  processTransaction net tx attempt s = sent tx attempt s.
Proof. intros Hnet. rewrite processTransaction_equation_1. simpl. by rewrite Hnet. Qed.

Lemma processTransaction_answered (net : Network) (tx : Transaction) (attempt : nat)
    (s : Page) (o : FetchOutcome) (st : TransactionStatus) :
  net (tx_id tx) attempt = Some o →
  settle (tx_id tx) o (sent tx attempt s)
    = (updateTransactionStatus (tx_id tx) st (sent tx attempt s), Normal) →
  processTransaction net tx attempt s
    = updateTransactionStatus (tx_id tx) st (sent tx attempt s).
Proof.
  intros Hnet Hsettle. rewrite processTransaction_equation_1. simpl.
  rewrite Hnet. unfold sent in Hsettle. by rewrite Hsettle.
Qed.

Lemma processTransaction_thrown (net : Network) (tx : Transaction) (attempt : nat)
    (s : Page) (o : FetchOutcome) (name : string) :
  net (tx_id tx) attempt = Some o →
  settle (tx_id tx) o (sent tx attempt s) = (sent tx attempt s, Thrown name) →
  processTransaction net tx attempt s
    = if decide (attempt < MAX_RETRIES)%nat
      then processTransaction net tx (attempt + 1)
             (emit (SetTimeout tx (attempt + 1) RETRY_DELAY)
                   (print (retry_line tx attempt) (sent tx attempt s)))
      else updateTransactionStatus (tx_id tx) error
             (print (give_up_line tx) (sent tx attempt s)).
Proof.
  intros Hnet Hsettle. rewrite processTransaction_equation_1. simpl.
  rewrite Hnet. unfold sent in Hsettle. rewrite Hsettle.
  by destruct (decide (attempt < MAX_RETRIES)%nat).
Qed.

Lemma effects_sent (tx : Transaction) (attempt : nat) (s : Page) :
  effects (sent tx attempt s)
    = effects s
      ++ (if (1 <? attempt)%nat then [SetStatus (tx_id tx) retrying] else [])
      ++ [Fetch tx attempt].
Proof.
  unfold sent. rewrite effects_emit.
  destruct (1 <? attempt)%nat; [|done].
  by rewrite effects_update, <- app_assoc.
Qed.

(** *** A whole chain *)

Ltac project :=
  rewrite ?status_updates_app, ?attempts_app, ?retry_delays_app; simpl;
  rewrite ?String.eqb_refl; simpl.

Lemma transactions_print (line : console_entry) (s : Page) :
  transactions (print line s) = transactions s.
Proof. done. Qed.

Lemma transactions_emit (e : Effect) (s : Page) :
  transactions (emit e s) = transactions s.
Proof. done. Qed.

Lemma transactions_update (id : string) (st : TransactionStatus) (s : Page) :
  transactions (updateTransactionStatus id st s) = set_status id st (transactions s).
Proof. unfold updateTransactionStatus. by rewrite transactions_setTransactions. Qed.

Lemma transactions_sent (tx : Transaction) (attempt : nat) (s : Page) :
  transactions (sent tx attempt s)
    = replay (tx_id tx) (if (1 <? attempt)%nat then [retrying] else []) (transactions s).
Proof.
  unfold sent. rewrite transactions_emit. destruct (1 <? attempt)%nat; [|done].
  by rewrite transactions_update.
Qed.

Lemma replay_app (id : string) (u1 u2 : list TransactionStatus) (l : list Transaction) :
  replay id (u1 ++ u2) l = replay id u2 (replay id u1 l).
Proof. apply foldl_app. Qed.

Lemma chain_shape (net : Network) (tx : Transaction) (n attempt : nat) (s : Page) :
  (MAX_RETRIES - attempt)%nat = n →
  (1 ≤ attempt)%nat →
  ∃ new k final,
    effects (processTransaction net tx attempt s) = effects s ++ new
    ∧ transactions (processTransaction net tx attempt s)
      = replay (tx_id tx) (status_updates (tx_id tx) new) (transactions s)
    ∧ chain_summary tx attempt new k final.
Proof.
  revert attempt s. induction n as [|n IH]; intros attempt s Hn Hpos.
  all: destruct (net (tx_id tx) attempt) as [o|] eqn:Hnet.
  all: try (rewrite (processTransaction_unsettled _ _ _ _ Hnet), effects_sent,
              transactions_sent;
            eexists _, 0%nat, []; split; [done|];
            split; [destruct (1 <? attempt)%nat; by project|];
            split; [lia|by left|..]; destruct (1 <? attempt)%nat; by project).
  all: destruct (settle_cases (tx_id tx) o (sent tx attempt s))
         as [[name Hthrow]|(st & Hst & Hdone)].
  all: try (rewrite (processTransaction_answered _ _ _ _ _ _ Hnet Hdone),
              effects_update, transactions_update, effects_sent, transactions_sent,
              <- !app_assoc;
            eexists _, 0%nat, [st]; split; [done|];
            split; [destruct (1 <? attempt)%nat; by project|];
            split; [lia|destruct Hst as [-> | ->]; auto|..];
            destruct (1 <? attempt)%nat; by project).
  - rewrite (processTransaction_thrown _ _ _ _ _ _ Hnet Hthrow).
    destruct (decide (attempt < MAX_RETRIES)%nat); [lia|].
    rewrite effects_update, transactions_update, effects_print, transactions_print.
    rewrite effects_sent, transactions_sent, <- !app_assoc.
    eexists _, 0%nat, [error]. split; [done|].
    split; [destruct (1 <? attempt)%nat; by project|].
    split; [lia|auto|..]; destruct (1 <? attempt)%nat; by project.
  - rewrite (processTransaction_thrown _ _ _ _ _ _ Hnet Hthrow).
    destruct (decide (attempt < MAX_RETRIES)%nat); [|lia].
    destruct (IH (attempt + 1)%nat
                 (emit (SetTimeout tx (attempt + 1) RETRY_DELAY)
                       (print (retry_line tx attempt) (sent tx attempt s))))
      as (new & k & final & Heff & Hledger & [Hk Hfinal Hupd Hatt Hdel]); [lia..|].
    rewrite Heff, Hledger, effects_emit, effects_print, transactions_emit,
      transactions_print.
    rewrite effects_sent, transactions_sent, <- !app_assoc.
    assert ((1 <? attempt + 1)%nat = true) as Hnext by (apply Nat.ltb_lt; lia).
    rewrite Hnext in Hupd.
    eexists _, (S k), final. split; [done|].
    split; [destruct (1 <? attempt)%nat; project; by rewrite ?replay_app|].
    split; [lia|done|..]; destruct (1 <? attempt)%nat; project;
      rewrite ?Hupd, ?Hatt, ?Hdel; try done.
    all: by rewrite Nat.add_1_r.
Qed.

Lemma processTransaction_retry (net : Network) (tx : Transaction) (attempt : nat)
    (s : Page) :
  (∃ o, net (tx_id tx) attempt = Some o ∧ transient o) →
  (attempt < MAX_RETRIES)%nat →
  processTransaction net tx attempt s
    = processTransaction net tx (S attempt)
        (emit (SetTimeout tx (S attempt) RETRY_DELAY)
              (print (retry_line tx attempt) (sent tx attempt s))).
Proof.
  intros (o & Hnet & Htr) Hlt.
  destruct (settle_transient (tx_id tx) o (sent tx attempt s) Htr) as [name Hthrow].
  rewrite (processTransaction_thrown net tx attempt s o name Hnet Hthrow).
  rewrite Nat.add_1_r. by destruct (decide (attempt < MAX_RETRIES)%nat).
Qed.

Lemma processTransaction_exhausted (net : Network) (tx : Transaction) (attempt : nat)
    (s : Page) :
  (∃ o, net (tx_id tx) attempt = Some o ∧ transient o) →
  (MAX_RETRIES ≤ attempt)%nat →
  processTransaction net tx attempt s
    = updateTransactionStatus (tx_id tx) error
        (print (give_up_line tx) (sent tx attempt s)).
Proof.
  intros (o & Hnet & Htr) Hge.
  destruct (settle_transient (tx_id tx) o (sent tx attempt s) Htr) as [name Hthrow].
  rewrite (processTransaction_thrown net tx attempt s o name Hnet Hthrow).
  destruct (decide (attempt < MAX_RETRIES)%nat); [lia|done].
Qed.

(** The chain when the attempts 1 to 5 all fail transiently. *)
Lemma five_failures (net : Network) (tx : Transaction) (s : Page) :
  (∀ attempt, ∃ o, net (tx_id tx) attempt = Some o ∧ transient o) →
  processTransaction net tx 1 s
    = updateTransactionStatus (tx_id tx) error
        (print (give_up_line tx)
           (sent tx 5
              (emit (SetTimeout tx 5 RETRY_DELAY)
                 (print (retry_line tx 4)
                    (sent tx 4
                       (emit (SetTimeout tx 4 RETRY_DELAY)
                          (print (retry_line tx 3)
                             (sent tx 3
                                (emit (SetTimeout tx 3 RETRY_DELAY)
                                   (print (retry_line tx 2)
                                      (sent tx 2
                                         (emit (SetTimeout tx 2 RETRY_DELAY)
                                            (print (retry_line tx 1)
                                               (sent tx 1 s)))))))))))))).
Proof.
  intros Hall.
  do 4 (rewrite processTransaction_retry; [|done|unfold MAX_RETRIES; lia]).
  rewrite processTransaction_exhausted; [done|done|unfold MAX_RETRIES; lia].
Qed.

Lemma set_status_set_status (id : string) (st1 st2 : TransactionStatus)
    (l : list Transaction) :
  set_status id st2 (set_status id st1 l) = set_status id st2 l.
Proof.
  unfold set_status. induction l as [|t l IH]; [done|]. simpl. rewrite IH. f_equal.
  destruct (String.eqb (tx_id t) id) eqn:Ht; simpl; by rewrite Ht.
Qed.

(** C4, as the code has it. Retry bound of one chain: on a page that stays
    open, when every delivery attempt of the chain started by
    [processTransaction(tx)] fails transiently (the request is rejected or
    answered 503), the chain makes exactly the five attempts 1..5, sets a
    timer of 2000 ms before each of the four retries, and then writes
    [error]: every ledger entry that carries the token ends with status
    [error] and its other fields as they were, the other entries are
    untouched, and nothing more is sent. *)
Theorem retry_bound (net : Network) (tx : Transaction) (s : Page) :
  (∀ attempt, ∃ o, net (tx_id tx) attempt = Some o ∧ transient o) →
  let s' := processTransaction net tx 1 s in
  effects s' = effects s ++ added s s'
  ∧ added s s'
    = [ Fetch tx 1;
        SetTimeout tx 2 2000; SetStatus (tx_id tx) retrying; Fetch tx 2;
        SetTimeout tx 3 2000; SetStatus (tx_id tx) retrying; Fetch tx 3;
        SetTimeout tx 4 2000; SetStatus (tx_id tx) retrying; Fetch tx 4;
        SetTimeout tx 5 2000; SetStatus (tx_id tx) retrying; Fetch tx 5;
        SetStatus (tx_id tx) error ]
  ∧ attempts (tx_id tx) (added s s') = [1; 2; 3; 4; 5]%nat
  ∧ retry_delays (tx_id tx) (added s s') = [2000; 2000; 2000; 2000]
  ∧ transactions s'
    = (fun t => if String.eqb (tx_id t) (tx_id tx)
                then mkTransaction (tx_id t) (tx_email t) (tx_amount t) error (tx_timestamp t)
                else t) <$> transactions s
  ∧ (∀ t, t ∈ transactions s → tx_id t = tx_id tx →
          mkTransaction (tx_id t) (tx_email t) (tx_amount t) error (tx_timestamp t)
            ∈ transactions s')
  ∧ ∀ t, t ∈ transactions s' → tx_id t = tx_id tx → tx_status t = error.
Proof.
  intros Hall s'.
  assert (∀ t, t ∈ transactions s' → tx_id t = tx_id tx → tx_status t = error) as Hfinal.
  { subst s'. rewrite five_failures by done.
    intros t Ht. by apply status_after_update in Ht as [? _]. }
  assert (effects s'
          = effects s
            ++ [ Fetch tx 1;
                 SetTimeout tx 2 2000; SetStatus (tx_id tx) retrying; Fetch tx 2;
                 SetTimeout tx 3 2000; SetStatus (tx_id tx) retrying; Fetch tx 3;
                 SetTimeout tx 4 2000; SetStatus (tx_id tx) retrying; Fetch tx 4;
                 SetTimeout tx 5 2000; SetStatus (tx_id tx) retrying; Fetch tx 5;
                 SetStatus (tx_id tx) error ]) as Heff.
  { subst s'. rewrite five_failures by done.
    rewrite effects_update, effects_print.
    repeat (rewrite effects_sent, ?effects_emit, ?effects_print).
    simpl. by rewrite <- !app_assoc. }
  assert (transactions s'
          = (fun t => if String.eqb (tx_id t) (tx_id tx)
                      then mkTransaction (tx_id t) (tx_email t) (tx_amount t) error
                                         (tx_timestamp t)
                      else t) <$> transactions s) as Hledger.
  { subst s'. rewrite five_failures by done.
    rewrite transactions_update, transactions_print.
    repeat (rewrite transactions_sent, ?transactions_emit, ?transactions_print).
    unfold replay. simpl. by rewrite !set_status_set_status. }
  rewrite (added_app _ _ _ Heff). split; [done|]. split; [done|].
  split; [by project|]. split; [by project|]. split; [done|]. split; [|done].
  intros t Ht Hid. rewrite Hledger. apply list_elem_of_fmap.
  exists t. split; [|done]. apply String.eqb_eq in Hid. by rewrite Hid.
Qed.

(** *** The state machine *)



(** The scenario of the specification: two transient failures, then a
    success; three attempts, and the operation ends [success]. *)
Example third_attempt_confirms :
  let s := handleSubmit third_time_lucky "K1" 1700000000000
             (fill "a@b.c" "12.50" (mount third_time_lucky NoItem)) in
  attempts "K1" (effects s) = [1; 2; 3]%nat
  ∧ tx_status <$> transactions s = [success]
  ∧ tx_logs s = Saved (transactions s).
Proof. vm_compute. done. Qed.

(** *** Resumption *)






(** The bound is per entry: a saved ledger in which two live entries carry
    the token K1 has it sent ten times by one process start. *)
Example repeated_token_is_sent_per_entry :
  attempts "K1" (effects (mount always_503 (Saved repeated_ledger)))
    = [1; 2; 3; 4; 5; 1; 2; 3; 4; 5]%nat.
Proof. vm_compute. reflexivity. Qed.


(** C4 as stated fails. Every answer the page gets for token K1 is a 503.
    The first run is closed while its fifth request is in flight: five
    attempts have been made and the operation is saved as [retrying], not
    [error].  The next process start restarts it at attempt 1 and sends it
    five more times before it writes [error]: ten delivery attempts for one
    operation, more than [MAX_RETRIES]. *)
Lemma transient_operation_is_sent_ten_times :
  (∀ n o, closed_on_fifth "K1" n = Some o → transient o)
  ∧ (∀ n, ∃ o, always_503 "K1" n = Some o ∧ transient o)
  ∧ attempts "K1" (effects interrupted_run) = [1; 2; 3; 4; 5]%nat
  ∧ tx_status <$> transactions interrupted_run = [retrying]
  ∧ tx_logs interrupted_run
    = Saved [mkTransaction "K1" "a@b.c" "12.50" retrying 1700000000000]
  ∧ attempts "K1" (effects reopened_run) = [1; 2; 3; 4; 5]%nat
  ∧ tx_status <$> transactions reopened_run = [error]
  ∧ ¬ (length (attempts "K1" (effects interrupted_run))
       + length (attempts "K1" (effects reopened_run)) ≤ MAX_RETRIES)%nat.
Proof.
  assert (attempts "K1" (effects interrupted_run) = [1; 2; 3; 4; 5]%nat) as H1
    by (vm_compute; reflexivity).
  assert (attempts "K1" (effects reopened_run) = [1; 2; 3; 4; 5]%nat) as H2
    by (vm_compute; reflexivity).
  split.
  { intros n o. unfold closed_on_fifth. destruct (n <? 5)%nat; [|done].
    intros [= <-]. by right. }
  split.
  { intros n. exists (Responds 503). split; [done|]. by right. }
  split; [done|]. split; [vm_compute; reflexivity|]. split; [vm_compute; reflexivity|].
  split; [done|]. split; [vm_compute; reflexivity|].
  rewrite H1, H2. unfold MAX_RETRIES. simpl. lia.
Qed.

Lemma retry_bound_witness :
  attempts "K1" (added open_page (processTransaction always_503 k1 1 open_page))
    = [1; 2; 3; 4; 5]%nat
  ∧ retry_delays "K1" (added open_page (processTransaction always_503 k1 1 open_page))
    = [2000; 2000; 2000; 2000]
  ∧ transactions (processTransaction always_503 k1 1 open_page)
    = [ mkTransaction "K1" "a@b.c" "12.50" error 1700000000000;
        mkTransaction "K0" "c@d.e" "7" success 1600000000000 ].
Proof.
  assert (∀ attempt, ∃ o, always_503 (tx_id k1) attempt = Some o ∧ transient o) as Hall.
  { intros attempt. exists (Responds 503). split; [reflexivity|]. right. reflexivity. }
  pose proof (retry_bound always_503 k1 open_page Hall) as H.
  cbv zeta in H. destruct H as (_ & _ & Hatt & Hdel & Hledger & _).
  split; [exact Hatt|]. split; [exact Hdel|]. exact Hledger.
Defined.


End LedgerProofs.

(** * Process start over an unreadable store *)

Module HydrationProofs.

(** On a saved ledger the load effect over documents does what the typed
    one does: the ledger is installed and the live entries are restarted. *)
Lemma raw_forEach_step (t : Ledger.Transaction) (rest resumed : list json) :
  Ledger.raw_forEach (Ledger.tx_json t :: rest) resumed
    = if Ledger.resumable t
      then Ledger.raw_forEach rest (resumed ++ [Ledger.tx_json t])
      else Ledger.raw_forEach rest resumed.
Proof. destruct t as [i e a st ts]. by destruct st. Qed.

Lemma raw_forEach_saved (l : list Ledger.Transaction) (resumed : list json) :
  Ledger.raw_forEach (Ledger.tx_json <$> l) resumed
    = (resumed ++ (Ledger.tx_json <$> filter (fun tx => Ledger.resumable tx = true) l),
       Normal).
Proof.
  revert resumed. induction l as [|t l IH]; intros resumed.
  - simpl. by rewrite app_nil_r.
  - rewrite fmap_cons, raw_forEach_step, filter_cons.
    destruct (Ledger.resumable t) eqn:Ht; rewrite IH.
    + destruct (decide (true = true)); [|done].
      by rewrite fmap_cons, <- app_assoc.
    + by destruct (decide (false = true)).
Qed.

Lemma raw_load_saved (l : list Ledger.Transaction) :
  Ledger.raw_load (Saved (Ledger.logs_json l)) Ledger.raw_initial
    = Ledger.mkRawPage (Ledger.logs_json l) true
        (Ledger.tx_json <$> filter (fun tx => Ledger.resumable tx = true) l) [].
Proof.
  unfold Ledger.raw_load, Ledger.raw_load_try, Ledger.logs_json. simpl.
  by rewrite raw_forEach_saved.
Qed.

(** A text that [JSON.parse] rejects ends in the [catch] block of either
    page: the only trace is the line it prints. *)
Lemma parse_failure_is_caught (net : Ledger.Network) (text : string) :
  text ≠ "" →
  Reconciler.console (Reconciler.hydrate (Reconciler.initial (Unparseable text)))
    = [console_error "Failed to load storage"]
  ∧ Ledger.console (Ledger.mount net (Unparseable text))
    = [console_error "Failed to parse logs"].
Proof.
  intros Htext. apply String.eqb_neq in Htext.
  unfold Reconciler.hydrate, Ledger.mount, Ledger.load. simpl. by rewrite Htext.
Qed.

(** On the document [saveToStorage] writes, [new Map] makes one [set] call
    per saved entry, with the saved key and snapshot. *)
Lemma raw_new_Map_saved (entries : list (string * Reconciler.ItemState)) :
  Reconciler.raw_new_Map (Reconciler.entries_json entries)
    = Some ((fun kv => (Some (JStr kv.1), Some (Reconciler.item_json kv.2))) <$> entries).
Proof.
  unfold Reconciler.entries_json. simpl.
  induction entries as [|kv entries IH]; [done|].
  rewrite !fmap_cons. cbn [mapM]. rewrite IH. done.
Qed.

(** C8, as the code has it. When the item is absent, empty or rejected by
    [JSON.parse], process start completes: the failure is caught, nothing
    is loaded, and the engine goes on to accept events (the reconciler
    stores and saves the next event) and operations (the ledger enters the
    next submission as [pending] and sends it, and its item has been
    overwritten with the empty ledger).  Over any document at all the load
    step completes and marks the page loaded, but what [JSON.parse] accepts
    is neither validated nor dropped: the ledger becomes the parsed value,
    whatever it is; the reconciler's map is the one [new Map] builds from
    the parsed value whenever the constructor accepts it, and stays empty
    only when the constructor throws. *)
Theorem unreadable_store_is_dropped (net : Ledger.Network)
    (orders : stored (list (string * Reconciler.ItemState)))
    (logs : stored (list Ledger.Transaction)) :
  unreadable orders →
  unreadable logs →
  (let s := Reconciler.hydrate (Reconciler.initial orders) in
   Reconciler.stateMap s = ∅
   ∧ Reconciler.isLoaded s = true
   ∧ ∀ e, let s' := Reconciler.processEvent e s in
          Reconciler.stateMap s'
            = {[ Reconciler.ev_id e :=
                   Reconciler.mkItemState (Reconciler.ev_id e) (Reconciler.ev_timestamp e)
                     (Reconciler.ev_type e) (Reconciler.ev_payload e) ]}
          ∧ Reconciler.orders_db s'
            = Saved [(Reconciler.ev_id e,
                      Reconciler.mkItemState (Reconciler.ev_id e) (Reconciler.ev_timestamp e)
                        (Reconciler.ev_type e) (Reconciler.ev_payload e))])
  ∧ (let p := Ledger.mount net logs in
     Ledger.transactions p = []
     ∧ Ledger.isLoaded p = true
     ∧ Ledger.tx_logs p = Saved []
     ∧ Ledger.effects p = []
     ∧ ∀ key now e a, e ≠ "" → a ≠ "" →
         let p' := Ledger.handleSubmit net key now (Ledger.fill e a p) in
         ∃ k updates,
           Ledger.attempts key (Ledger.effects p') = seq 1 (S k)
           ∧ Ledger.transactions p'
             = Ledger.replay key updates [Ledger.mkTransaction key e a Ledger.pending now])
  ∧ (∀ doc : stored json,
      Ledger.raw_isLoaded (Ledger.raw_load doc Ledger.raw_initial) = true
      ∧ (unreadable doc →
         Ledger.raw_transactions (Ledger.raw_load doc Ledger.raw_initial) = JArr []
         ∧ Ledger.raw_resumed (Ledger.raw_load doc Ledger.raw_initial) = [])
      ∧ (∀ parsedLogs, doc = Saved parsedLogs →
         Ledger.raw_transactions (Ledger.raw_load doc Ledger.raw_initial) = parsedLogs))
  ∧ (∀ doc : stored json,
      Reconciler.raw_isLoaded (Reconciler.raw_hydrate doc Reconciler.raw_initial) = true
      ∧ (unreadable doc →
         Reconciler.raw_stateMap (Reconciler.raw_hydrate doc Reconciler.raw_initial) = [])
      ∧ (∀ parsedEntries entries,
           doc = Saved parsedEntries →
           Reconciler.raw_new_Map parsedEntries = Some entries →
           Reconciler.raw_stateMap (Reconciler.raw_hydrate doc Reconciler.raw_initial)
             = entries)
      ∧ (∀ parsedEntries,
           doc = Saved parsedEntries →
           Reconciler.raw_new_Map parsedEntries = None →
           Reconciler.raw_stateMap (Reconciler.raw_hydrate doc Reconciler.raw_initial) = []))
  ∧ (∀ saved : list (string * Reconciler.ItemState),
      Reconciler.raw_stateMap
        (Reconciler.raw_hydrate (Saved (Reconciler.entries_json saved)) Reconciler.raw_initial)
        = (fun kv => (Some (JStr kv.1), Some (Reconciler.item_json kv.2))) <$> saved).
Proof.
  intros Horders Hlogs. split; [|split; [|split; [|split]]].
  - assert (Reconciler.stateMap (Reconciler.hydrate (Reconciler.initial orders)) = ∅
            ∧ Reconciler.isLoaded (Reconciler.hydrate (Reconciler.initial orders)) = true)
      as [Hmap Hloaded].
    { destruct orders as [|text|entries]; [done| |done].
      unfold Reconciler.hydrate. simpl. by destruct (negb _). }
    revert Hmap Hloaded.
    generalize (Reconciler.hydrate (Reconciler.initial orders)). intros s Hmap Hloaded.
    split; [done|]. split; [done|]. intros e s'. subst s'.
    unfold Reconciler.processEvent, Reconciler.saveToStorage. simpl.
    rewrite Hmap, lookup_empty. simpl. rewrite Hloaded. simpl.
    rewrite insert_empty. split; [done|]. f_equal. apply map_to_list_singleton.
  - assert (Ledger.mount net logs
            = Ledger.mkPage "" "" [] true (Saved [])
                (Ledger.console (Ledger.mount net logs)) []) as Hp.
    { destruct logs as [|text|l]; [done| |done].
      unfold Ledger.mount, Ledger.load. simpl. by destruct (negb _). }
    rewrite Hp. simpl. do 4 (split; [done|]).
    intros key now e a He Ha. apply String.eqb_neq in He, Ha.
    unfold Ledger.handleSubmit, Ledger.fill. simpl. rewrite He, Ha. simpl.
    match goal with
    | |- context [Ledger.processTransaction net ?tx 1 ?s] =>
        destruct (LedgerProofs.chain_shape net tx _ 1 s eq_refl (le_n 1))
          as (new & k & final & Heff & Hledger & [_ _ _ Hatt _])
    end.
    exists k, (Ledger.status_updates key new). simpl in *.
    rewrite Heff, Hledger. simpl. by rewrite Hatt.
  - intros doc. split; [done|]. split.
    + intros Hdoc. destruct doc as [|text|v]; [done| |done].
      unfold Ledger.raw_load. simpl. by destruct (negb _).
    + intros parsedLogs ->. unfold Ledger.raw_load, Ledger.raw_load_try. simpl.
      destruct parsedLogs as [| | | |items|]; try done.
      by destruct (Ledger.raw_forEach items []) as [resumed []].
  - intros doc. split; [done|]. split; [|split].
    + intros Hdoc. destruct doc as [|text|v]; [done| |done].
      unfold Reconciler.raw_hydrate. simpl. by destruct (negb _).
    + intros parsedEntries entries -> Hmap.
      unfold Reconciler.raw_hydrate, Reconciler.raw_hydrate_try. simpl. by rewrite Hmap.
    + intros parsedEntries -> Hmap.
      unfold Reconciler.raw_hydrate, Reconciler.raw_hydrate_try. simpl. by rewrite Hmap.
  - intros saved. unfold Reconciler.raw_hydrate, Reconciler.raw_hydrate_try.
    cbn [truthy_item]. by rewrite raw_new_Map_saved.
Qed.

(** Documents [JSON.parse] accepts and the reconciler keeps or refuses: an
    entry whose snapshot is [null] is installed as it is; a list of numbers
    makes [new Map] throw and leaves the map empty. *)
Example unchecked_entries_are_installed :
  Reconciler.raw_stateMap
    (Reconciler.raw_hydrate (Saved (JArr [JArr [JStr "A"; JNull]])) Reconciler.raw_initial)
    = [(Some (JStr "A"), Some JNull)]
  ∧ Reconciler.raw_stateMap
      (Reconciler.raw_hydrate (Saved (JArr [JNum 1; JNum 2])) Reconciler.raw_initial)
    = [].
Proof. by vm_compute. Qed.

(** C8 as stated fails on the ledger. The item text null is read by
    [JSON.parse]; [setTransactions] receives [null] before [forEach] throws,
    so after the caught failure the ledger is [null], not an empty list, and
    the updater of the next submission throws when it spreads it. *)
Lemma null_document_is_not_dropped :
  ¬ (∀ (doc : stored json) (newTransaction : json),
       snd (Ledger.raw_prepend newTransaction
              (Ledger.raw_transactions (Ledger.raw_load doc Ledger.raw_initial)))
         = Normal).
Proof.
  intros Hclaim. specialize (Hclaim (Saved JNull) (JObj [])).
  vm_compute in Hclaim. discriminate.
Qed.

Lemma unreadable_store_is_dropped_witness :
  Reconciler.stateMap
    (Reconciler.hydrate (Reconciler.initial (Unparseable "{oops"))) = ∅
  ∧ Ledger.tx_logs (Ledger.mount Ledger.always_503 (Unparseable "{oops")) = Saved []
  ∧ Ledger.raw_transactions (Ledger.raw_load (Saved (JNum 7)) Ledger.raw_initial) = JNum 7
  ∧ Reconciler.raw_stateMap
      (Reconciler.raw_hydrate (Saved (JNum 7)) Reconciler.raw_initial) = [].
Proof.
  destruct (unreadable_store_is_dropped Ledger.always_503
              (Unparseable "{oops") (Unparseable "{oops") I I)
    as ((Hmap & _) & (_ & _ & Hlogs & _) & Hledger & Hreconciler & _).
  split; [exact Hmap|]. split; [exact Hlogs|]. split.
  - destruct (Hledger (Saved (JNum 7))) as (_ & _ & Hinstalled).
    by apply Hinstalled.
  - destruct (Hreconciler (Saved (JNum 7))) as (_ & _ & _ & Hthrows).
    by apply (Hthrows (JNum 7)).
Defined.

End HydrationProofs.

(** * Further properties of the reconciler *)

Module ReconcilerExtra.
Import Reconciler ReconcilerProofs.

(** What a late event does to the page. *)
Lemma processEvent_late (e : ServerEvent) (s : Page) :
  is_late (stateMap s !! ev_id e) e = true →
  processEvent e s
    = mkPage (e :: eventLog s) (stateMap s) (isLoaded s) (orders_db s)
             (console_log ("[Ignored] Late event for " +:+ ev_id e) :: console s).
Proof. intros Hlate. unfold processEvent. simpl. by rewrite Hlate. Qed.

(** What an event that is not late does. *)
Lemma processEvent_fresh (e : ServerEvent) (s : Page) :
  is_late (stateMap s !! ev_id e) e = false →
  processEvent e s
    = saveToStorage (mkPage (e :: eventLog s) (<[ev_id e := snapshot_of e]> (stateMap s))
                            (isLoaded s) (orders_db s) (console s)).
Proof. intros Hlate. unfold processEvent. simpl. by rewrite Hlate. Qed.

(** X1. An event delivered twice in a row has the effect of one delivery on
    the map and on the item. *)
Theorem duplicate_delivery_is_ignored (e : ServerEvent) (s : Page) :
  stateMap (processEvent e (processEvent e s)) = stateMap (processEvent e s)
  ∧ orders_db (processEvent e (processEvent e s)) = orders_db (processEvent e s).
Proof.
  destruct (processEvent_at_least e s) as (r & Hr & Hle).
  apply is_late_true in Hle. rewrite <- Hr in Hle.
  by rewrite (processEvent_late e (processEvent e s) Hle).
Qed.

(** One event never erases a snapshot nor moves it back in time. *)
Lemma processEvent_forward (e : ServerEvent) (s : Page) (k : string) (r : ItemState) :
  stateMap s !! k = Some r →
  ∃ r', stateMap (processEvent e s) !! k = Some r'
        ∧ it_lastUpdated r ≤ it_lastUpdated r'.
Proof.
  intros Hr. destruct (decide (k = ev_id e)) as [-> | Hk].
  - rewrite processEvent_stateMap, Hr.
    destruct (is_late (Some r) e) eqn:Hlate.
    + exists r. split; [done|lia].
    + apply is_late_false in Hlate. exists (snapshot_of e).
      rewrite lookup_insert_eq. split; [done|simpl; lia].
  - exists r. rewrite processEvent_other by done. split; [done|lia].
Qed.

(** X2. Over any sequence of deliveries a stored snapshot is never erased and
    its [lastUpdated] never decreases. *)
Theorem snapshots_only_move_forward (events : list ServerEvent) (s : Page)
    (k : string) (r : ItemState) :
  stateMap s !! k = Some r →
  ∃ r', stateMap (deliver events s) !! k = Some r'
        ∧ it_lastUpdated r ≤ it_lastUpdated r'.
Proof.
  revert s r. induction events as [|e events IH]; intros s r Hr.
  - exists r. split; [done|lia].
  - destruct (processEvent_forward e s k r Hr) as (r1 & Hr1 & Hle1).
    destruct (IH (processEvent e s) r1 Hr1) as (r2 & Hr2 & Hle2).
    exists r2. rewrite deliver_cons. split; [done|lia].
Qed.

Lemma snapshots_only_move_forward_witness :
  ∃ r', stateMap (deliver stale_arrivals (processEvent tombstone (initial NoItem))) !! "A"
          = Some r'
        ∧ 110 ≤ it_lastUpdated r'.
Proof.
  apply (snapshots_only_move_forward stale_arrivals
           (processEvent tombstone (initial NoItem)) "A" (snapshot_of tombstone)).
  vm_compute. reflexivity.
Defined.

(** Events of an entity that are all older than [T], delivered to a map
    whose snapshot of the entity is absent or older than [T], leave it
    absent or older than [T]. *)
Lemma deliver_below (k : string) (T : Z) (l : list ServerEvent) (s : Page) :
  (∀ r, stateMap s !! k = Some r → it_lastUpdated r < T) →
  (∀ e, e ∈ l → ev_id e = k → ev_timestamp e < T) →
  ∀ r, stateMap (deliver l s) !! k = Some r → it_lastUpdated r < T.
Proof.
  revert s. induction l as [|x l IH]; intros s Hs Hl; [done|].
  rewrite deliver_cons. apply IH.
  - intros r. destruct (decide (k = ev_id x)) as [-> | Hk].
    + rewrite processEvent_stateMap.
      destruct (is_late (stateMap s !! ev_id x) x); [apply Hs|].
      rewrite lookup_insert_eq. intros [= <-]. simpl.
      apply Hl; [apply elem_of_cons; by left|done].
    + rewrite processEvent_other by done. apply Hs.
  - intros e He. apply Hl, elem_of_cons. by right.
Qed.

(** The event that is strictly newer than everything else known of its
    entity ends up stored, wherever it stands in the sequence. *)
Lemma newest_wins (e : ServerEvent) (l : list ServerEvent) (s : Page) :
  e ∈ l →
  (∀ e', e' ∈ l → ev_id e' = ev_id e → e' = e ∨ ev_timestamp e' < ev_timestamp e) →
  (∀ r, stateMap s !! ev_id e = Some r → it_lastUpdated r < ev_timestamp e) →
  stateMap (deliver l s) !! ev_id e = Some (snapshot_of e).
Proof.
  intros Hin Hothers Hold.
  apply list_elem_of_split_l in Hin as (l1 & l2 & -> & Hfirst).
  unfold deliver. rewrite foldl_app. fold (deliver l1 s). simpl.
  fold (deliver l2 (processEvent e (deliver l1 s))).
  apply deliver_stale_keeps.
  - rewrite processEvent_stateMap.
    assert (is_late (stateMap (deliver l1 s) !! ev_id e) e = false) as ->.
    { destruct (stateMap (deliver l1 s) !! ev_id e) as [r|] eqn:Hr; [|done].
      apply is_late_false. apply (deliver_below (ev_id e) _ l1 s); [done| |done].
      intros e' He' Hid.
      destruct (Hothers e') as [-> | Hlt]; [apply elem_of_app; by left|done| |done].
      by destruct Hfirst. }
    by rewrite lookup_insert_eq.
  - intros e' He' Hid. simpl.
    destruct (Hothers e') as [-> | Hlt]; [|done|lia|lia].
    apply elem_of_app. right. apply elem_of_cons. by right.
Qed.

(** X3. Convergence under reordering, duplication and interleaving: if an event
    is strictly newer than the stored snapshot of its entity and than every
    other event of that entity in the sequence (which may repeat events and
    mix in other entities), the entity ends with the snapshot built from
    it, wherever the event stands. *)
Theorem newest_event_wins (e : ServerEvent) (before after : list ServerEvent) (s : Page) :
  (∀ e', e' ∈ before ++ after → ev_id e' = ev_id e →
         e' = e ∨ ev_timestamp e' < ev_timestamp e) →
  (∀ r, stateMap s !! ev_id e = Some r → it_lastUpdated r < ev_timestamp e) →
  stateMap (deliver (before ++ e :: after) s) !! ev_id e = Some (snapshot_of e)
  ∧ it_lastUpdated <$> stateMap (deliver (before ++ e :: after) s) !! ev_id e
    = Some (ev_timestamp e).
Proof.
  intros Hothers Hold.
  assert (stateMap (deliver (before ++ e :: after) s) !! ev_id e = Some (snapshot_of e))
    as Hfinal.
  { apply newest_wins; [apply elem_of_app; right; apply elem_of_cons; by left| |done].
    intros e' He' Hid. apply elem_of_app in He' as [He' | He'].
    - apply Hothers; [apply elem_of_app; by left|done].
    - apply elem_of_cons in He' as [-> | He']; [by left|].
      apply Hothers; [apply elem_of_app; by right|done]. }
  split; [done|]. by rewrite Hfinal.
Qed.

Lemma newest_event_wins_witness :
  stateMap (deliver ([mkServerEvent "A" 100 created "Order A - PENDING";
                      mkServerEvent "B" 500 created "Order B - PENDING"]
                     ++ tombstone :: stale_arrivals) (initial NoItem)) !! "A"
    = Some (snapshot_of tombstone).
Proof.
  apply (newest_event_wins tombstone
           [mkServerEvent "A" 100 created "Order A - PENDING";
            mkServerEvent "B" 500 created "Order B - PENDING"]
           stale_arrivals (initial NoItem)).
  - intros e' He' Hid. right. unfold stale_arrivals in He'. simpl in He'.
    repeat (apply elem_of_cons in He' as [-> | He']);
      try (by apply elem_of_nil in He'); simpl in *; lia || discriminate.
  - intros r Hr. vm_compute in Hr. discriminate.
Defined.

(** X4. [generateOrderFlow]: however the three events of an order are shuffled
    (and whatever is delivered for other orders in between), the order ends
    as SHIPPED, provided the map holds nothing newer about it. *)
Theorem order_flow_ends_shipped (n t : Z) (deliveries : list ServerEvent) (s : Page) :
  shipped n t ∈ deliveries →
  (∀ e, e ∈ deliveries → ev_id e = order_id n → e ∈ order_events n t) →
  (∀ r, stateMap s !! order_id n = Some r → it_lastUpdated r < t + 5000) →
  stateMap (deliver deliveries s) !! order_id n
    = Some (mkItemState (order_id n) (t + 5000) updated
                        ("Order " +:+ order_id n +:+ " - SHIPPED")).
Proof.
  intros Hin Hflow Hold.
  apply (newest_wins (shipped n t) deliveries s); [done| |done].
  intros e He Hid. specialize (Hflow e He Hid). unfold order_events in Hflow.
  repeat (apply elem_of_cons in Hflow as [-> | Hflow]); simpl;
    [right; lia|right; lia|by left|by apply elem_of_nil in Hflow].
Qed.

Lemma order_flow_ends_shipped_witness :
  stateMap (deliver (reverse (order_events 123 1700000000000)) (initial NoItem))
    !! order_id 123
    = Some (mkItemState (order_id 123) 1700000005000 updated
                        ("Order " +:+ order_id 123 +:+ " - SHIPPED")).
Proof.
  apply (order_flow_ends_shipped 123 1700000000000
           (reverse (order_events 123 1700000000000)) (initial NoItem)).
  - vm_compute. apply elem_of_cons. by left.
  - intros e He _. apply elem_of_reverse in He. exact He.
  - intros r Hr. vm_compute in Hr. discriminate.
Defined.

(** *** Persistence *)

Lemma new_Map_list_to_map (entries : list (string * ItemState)) :
  new_Map entries = list_to_map (reverse entries).
Proof.
  unfold new_Map. induction entries as [|kv entries IH] using rev_ind; [done|].
  rewrite foldl_app, reverse_app. simpl. by rewrite IH.
Qed.

(** Reading back the entries written for a map gives the map. *)
Lemma new_Map_to_list (m : gmap string ItemState) : new_Map (map_to_list m) = m.
Proof.
  rewrite new_Map_list_to_map.
  rewrite <- (list_to_map_to_list m) at 2.
  apply list_to_map_proper.
  - rewrite fmap_reverse, reverse_Permutation. apply NoDup_fst_map_to_list.
  - apply reverse_Permutation.
Qed.

Lemma hydrate_stateMap (db : stored (list (string * ItemState))) :
  stateMap (hydrate (initial db))
    = match db with Saved entries => new_Map entries | _ => ∅ end
  ∧ isLoaded (hydrate (initial db)) = true
  ∧ orders_db (hydrate (initial db)) = db.
Proof.
  destruct db as [|text|entries]; [done| |done].
  unfold hydrate. simpl. by destruct (negb _).
Qed.

(** X5. Nothing accepted is lost by a restart: on a page that has hydrated,
    after any deliveries, closing and reopening the page gives back the map
    as it was (whatever the item held at first, unreadable text included). *)
Theorem reload_restores_the_map (db : stored (list (string * ItemState)))
    (events : list ServerEvent) :
  stateMap (reload (deliver events (hydrate (initial db))))
    = stateMap (deliver events (hydrate (initial db))).
Proof.
  assert (∀ s, isLoaded s = true → stateMap (reload s) = stateMap s →
               isLoaded (deliver events s) = true
               ∧ stateMap (reload (deliver events s)) = stateMap (deliver events s))
    as Hkeep.
  { induction events as [|e events IH]; intros s Hloaded Hsame; [done|].
    rewrite deliver_cons. apply IH.
    - unfold processEvent, saveToStorage. simpl.
      destruct (is_late _ _); [done|]. simpl. by rewrite Hloaded.
    - destruct (is_late (stateMap s !! ev_id e) e) eqn:Hlate.
      + by rewrite (processEvent_late e s Hlate).
      + rewrite (processEvent_fresh e s Hlate).
        unfold saveToStorage. cbn [isLoaded]. rewrite Hloaded.
        unfold reload. cbn [orders_db stateMap].
        destruct (hydrate_stateMap
                    (Saved (map_to_list (<[ev_id e:=snapshot_of e]> (stateMap s)))))
          as (-> & _). apply new_Map_to_list. }
  destruct (hydrate_stateMap db) as (Hmap & Hloaded & Hdb).
  apply Hkeep; [done|]. unfold reload. by rewrite Hdb.
Qed.

(** The map after a sequence of deliveries depends on the map alone. *)
Lemma deliver_stateMap_ext (l : list ServerEvent) (s1 s2 : Page) :
  stateMap s1 = stateMap s2 →
  stateMap (deliver l s1) = stateMap (deliver l s2).
Proof.
  revert s1 s2. induction l as [|e l IH]; intros s1 s2 Hsame; [done|].
  rewrite !deliver_cons. apply IH. by rewrite !processEvent_stateMap, Hsame.
Qed.

(** X6. [clearStorage] is a fresh start: the item is gone, a restart finds an
    empty map, and any later deliveries (events older than a former
    tombstone included) are reconciled as on a page that never saw
    anything. *)
Theorem reset_is_a_fresh_start (s : Page) (events : list ServerEvent) :
  orders_db (clearStorage s) = NoItem
  ∧ stateMap (reload (clearStorage s)) = ∅
  ∧ eventLog (clearStorage s) = []
  ∧ stateMap (deliver events (clearStorage s))
    = stateMap (deliver events (hydrate (initial NoItem))).
Proof.
  split; [done|]. split; [done|]. split; [done|].
  by apply deliver_stateMap_ext.
Qed.

(** X7. The event log keeps every delivered event, accepted or ignored, newest
    first; the feed shows the first five of them. *)
Theorem event_log_keeps_everything (events : list ServerEvent) (s : Page) :
  eventLog (deliver events s) = reverse events ++ eventLog s
  ∧ live_feed (deliver events s) = take 5 (reverse events ++ eventLog s).
Proof.
  assert (eventLog (deliver events s) = reverse events ++ eventLog s) as Hlog.
  { revert s. induction events as [|e events IH]; intros s; [done|].
    rewrite deliver_cons, IH, reverse_cons, <- app_assoc. simpl.
    f_equal. unfold processEvent, saveToStorage. simpl.
    destruct (is_late _ _); [done|]. simpl. by destruct (isLoaded s). }
  split; [done|]. unfold live_feed. by rewrite Hlog.
Qed.

(** *** The two views *)

Lemma sort_insert_perm {A} (compare : A → A → Z) (x : A) (sorted : list A) :
  sort_insert compare x sorted ≡ₚ x :: sorted.
Proof.
  induction sorted as [|y rest IH]; [done|]. simpl.
  destruct (compare x y <=? 0); [done|]. rewrite IH. apply perm_swap.
Qed.

Lemma sort_perm {A} (compare : A → A → Z) (l : list A) : sort compare l ≡ₚ l.
Proof.
  induction l as [|x l IH]; [done|]. simpl. by rewrite sort_insert_perm, IH.
Qed.

Lemma sort_insert_newest_first (x : ItemState) (sorted : list ItemState) :
  StronglySorted newer_or_equal sorted →
  StronglySorted newer_or_equal
    (sort_insert (fun a b => it_lastUpdated b - it_lastUpdated a) x sorted).
Proof.
  induction 1 as [|y rest Hrest IH Hy]; simpl.
  - repeat constructor.
  - destruct (Z.leb_spec (it_lastUpdated y - it_lastUpdated x) 0) as [Hle|Hgt].
    + constructor; [by constructor|]. constructor; [unfold newer_or_equal; lia|].
      eapply Forall_impl; [exact Hy|]. unfold newer_or_equal. intros z Hz. lia.
    + constructor; [done|].
      rewrite sort_insert_perm. constructor; [unfold newer_or_equal; lia|done].
Qed.

(** X8. [refreshUI]: whatever order the map lists its values in, the active
    view holds exactly the snapshots of the map that are not tombstones, and
    the storage view holds all of them, newest first. *)
Theorem views_of_the_map (localeCompare : string → string → Z)
    (m : gmap string ItemState) (allItems : list ItemState) :
  allItems ≡ₚ (map_to_list m).*2 →
  (∀ r, r ∈ (refreshUI localeCompare allItems).1
        ↔ (∃ k, m !! k = Some r) ∧ it_type r ≠ deleted)
  ∧ (refreshUI localeCompare allItems).2 ≡ₚ allItems
  ∧ StronglySorted (fun a b => it_lastUpdated b ≤ it_lastUpdated a)
      (refreshUI localeCompare allItems).2.
Proof.
  intros Hall. unfold refreshUI. simpl. split; [|split].
  - intros r. rewrite sort_perm, list_elem_of_filter, Hall, list_elem_of_fmap.
    split.
    + intros [Hty ([k r'] & -> & Hin)]. apply elem_of_map_to_list in Hin.
      split; [by exists k|done].
    + intros [[k Hk] Hty]. split; [done|]. exists (k, r).
      split; [done|]. by apply elem_of_map_to_list.
  - apply sort_perm.
  - clear Hall. induction allItems as [|x l IH]; simpl; [constructor|].
    by apply sort_insert_newest_first.
Qed.

Lemma views_of_the_map_witness :
  (refreshUI (fun _ _ => 0) [snapshot_of tombstone]).1 = []
  ∧ (refreshUI (fun _ _ => 0) [snapshot_of tombstone]).2 ≡ₚ [snapshot_of tombstone].
Proof.
  assert ([snapshot_of tombstone]
          ≡ₚ (map_to_list (stateMap (processEvent tombstone (initial NoItem)))).*2)
    as Hall by (vm_compute; reflexivity).
  destruct (views_of_the_map (fun _ _ => 0) _ _ Hall) as (_ & Hperm & _).
  split; [reflexivity|exact Hperm].
Defined.

End ReconcilerExtra.

(** * Further properties of the idempotency backend *)

Module BackendExtra.
Import Backend BackendProofs.

(** What a call that records something looks like. *)
Lemma POST_records (req : RequestBody) (random delay_random : Q) (now : Z)
    (db : gmap string StoredTransaction) :
  processedTransactions (POST req random delay_random now db) = db
  ∨ ∃ email amount k,
      req = Fields (Some email) (Some amount) (Some k)
      ∧ email ≠ "" ∧ ¬ (amount == 0)%Q ∧ k ≠ "" ∧ db !! k = None
      ∧ processedTransactions (POST req random delay_random now db)
        = <[k := mkStoredTransaction email amount now]> db.
Proof.
  destruct req as [| |email amount key]; simpl; [by left..|].
  destruct (falsy_string email || falsy_number amount || falsy_string key) eqn:Hv;
    [by left|].
  apply orb_false_iff in Hv as [Hv Hkey]. apply orb_false_iff in Hv as [Hemail Hamount].
  destruct email as [e|], amount as [a|], key as [k|]; try done. simpl in *.
  case_bool_decide as Hin; [by left|].
  destruct (Qltb random lit_0_3); [by left|]. right.
  exists e, a, k. split; [done|].
  apply String.eqb_neq in Hemail, Hkey.
  split; [done|]. split.
  { intros Hq. apply Qeq_bool_iff in Hq. congruence. }
  split; [done|]. split; [|done].
  destruct (db !! k) eqn:Hk; [|done]. destruct Hin. by eexists.
Qed.

(** The five ways a call can end. *)
Lemma handle_cases (db : gmap string StoredTransaction) (c : Call) :
  (processedTransactions (handle db c) = db
   ∧ (http_status (response (handle db c)) = 500
      ∨ http_status (response (handle db c)) = 400
      ∨ http_status (response (handle db c)) = 503
      ∨ (http_status (response (handle db c)) = 200
         ∧ ∃ k, key_of (call_body c) = Some k ∧ is_Some (db !! k))))
  ∨ (http_status (response (handle db c)) = 200
     ∧ ∃ email amount k,
         call_body c = Fields (Some email) (Some amount) (Some k)
         ∧ db !! k = None
         ∧ processedTransactions (handle db c)
           = <[k := mkStoredTransaction email amount (call_now c)]> db).
Proof.
  unfold handle. destruct (call_body c) as [| |email amount key]; simpl;
    [left; split; [done|by left]..|].
  destruct (falsy_string email || falsy_number amount || falsy_string key) eqn:Hv;
    [left; split; [done|right; by left]|].
  apply orb_false_iff in Hv as [Hv Hkey]. apply orb_false_iff in Hv as [Hemail Hamount].
  destruct email as [e|], amount as [a|], key as [k|]; try done. simpl in *.
  case_bool_decide as Hin.
  { left. split; [done|]. do 3 right. split; [done|]. by exists k. }
  destruct (Qltb (call_random c) lit_0_3).
  { left. split; [done|]. right. right. by left. }
  right. split; [done|]. exists e, a, k. split; [done|]. split; [|done].
  destruct (db !! k) eqn:Hk; [|done]. destruct Hin. by eexists.
Qed.

(** *** Overlapping calls *)

(** A call that no other call overlaps is the handler run up to its delay
    and, when it sleeps, resumed over the same map. *)
Lemma POST_begin_resume (req : RequestBody) (random delay_random : Q) (now : Z)
    (db : gmap string StoredTransaction) :
  POST req random delay_random now db
    = match POST_begin req random delay_random now db with
      | Answers o => o
      | Awaits w => POST_resume w now db
      end.
Proof.
  destruct req as [| |email amount key]; simpl; [done..|].
  destruct (falsy_string email || falsy_number amount || falsy_string key); [done|].
  case_bool_decide; [done|].
  destruct (Qltb random lit_0_3); [done|]. by destruct (Qltb random lit_0_5).
Qed.

(** What the handler has checked when it goes to sleep or answers. *)
Lemma POST_begin_cases (req : RequestBody) (random delay_random : Q) (now : Z)
    (db : gmap string StoredTransaction) :
  match POST_begin req random delay_random now db with
  | Answers o =>
      processedTransactions o = db
      ∨ ∃ k tx, db !! k = None ∧ processedTransactions o = <[k := tx]> db
  | Awaits w =>
      req = Fields (Some (sl_email w)) (Some (sl_amount w)) (Some (sl_key w))
      ∧ sl_email w ≠ "" ∧ ¬ (sl_amount w == 0)%Q ∧ sl_key w ≠ ""
      ∧ db !! sl_key w = None
      ∧ Qltb random lit_0_3 = false ∧ Qltb random lit_0_5 = true
      ∧ sl_draw w = delay_random
  end.
Proof.
  destruct req as [| |email amount key]; simpl; [by left..|].
  destruct (falsy_string email || falsy_number amount || falsy_string key) eqn:Hv;
    [by left|].
  apply orb_false_iff in Hv as [Hv Hkey]. apply orb_false_iff in Hv as [Hemail Hamount].
  destruct email as [e|], amount as [a|], key as [k|]; try done. simpl in *.
  case_bool_decide as Hin; [by left|].
  assert (db !! k = None) as Hnone.
  { destruct (db !! k) eqn:Hk; [|done]. destruct Hin. by eexists. }
  destruct (Qltb random lit_0_3); [by left|].
  destruct (Qltb random lit_0_5).
  - apply String.eqb_neq in Hemail, Hkey. simpl. repeat split; try done.
    intros Hq. apply Qeq_bool_iff in Hq. congruence.
  - right. by eexists k, _.
Qed.

Lemma serve_snoc (calls : list Call) (c : Call) (db : gmap string StoredTransaction) :
  serve (calls ++ [c]) db = processedTransactions (handle (serve calls db) c).
Proof. unfold serve. by rewrite foldl_app. Qed.

(** Calls served one by one leave the map that [serve] computes. *)
Lemma one_by_one_serves (calls : list Call) (sv : Server) :
  asleep sv = [] →
  store (server_run (one_by_one calls) sv) = serve calls (store sv)
  ∧ asleep (server_run (one_by_one calls) sv) = [].
Proof.
  revert sv. induction calls as [|c calls IH]; intros sv Hnone; [done|].
  change (one_by_one (c :: calls))
    with ([Arrives c; Wakes 0 (call_now c)] ++ one_by_one calls).
  unfold server_run. rewrite foldl_app. fold (server_run (one_by_one calls)).
  change (serve (c :: calls) (store sv))
    with (serve calls (processedTransactions (handle (store sv) c))).
  assert (store (foldl server_step sv [Arrives c; Wakes 0 (call_now c)])
            = processedTransactions (handle (store sv) c)
          ∧ asleep (foldl server_step sv [Arrives c; Wakes 0 (call_now c)]) = [])
    as [Hstore Hasleep].
  { unfold handle. rewrite POST_begin_resume. simpl.
    destruct (POST_begin _ _ _ _ _) as [o|w]; simpl; rewrite Hnone; by simpl. }
  rewrite <- Hstore. by apply IH.
Qed.



Lemma Qltb_0_3_0_5 (random : Q) :
  Qltb random lit_0_5 = false → Qltb random lit_0_3 = false.
Proof.
  unfold Qltb. rewrite !negb_false_iff, !Qle_bool_iff. intros Hge.
  apply Qle_trans with lit_0_5; [|done]. by vm_compute.
Qed.

Lemma POST_begin_new_key (k e : string) (a random delay_random : Q) (now : Z)
    (db : gmap string StoredTransaction) :
  k ≠ "" → e ≠ "" → ¬ (a == 0)%Q → db !! k = None →
  Qltb random lit_0_3 = false →
  POST_begin (Fields (Some e) (Some a) (Some k)) random delay_random now db
    = if Qltb random lit_0_5
      then Awaits (mkSleeper k e a delay_random)
      else Answers
             (mkOutcome (<[k := mkStoredTransaction e a now]> db)
                (mkResponse 200
                   (SuccessBody "Transaction recorded successfully" "success" k))
                None).
Proof.
  intros Hk He Ha Hnew Hr. apply String.eqb_neq in Hk, He.
  assert (Qeq_bool a 0 = false) as Hq.
  { destruct (Qeq_bool a 0) eqn:Hq; [|done]. by apply Qeq_bool_eq in Hq. }
  simpl. rewrite Hk, He, Hq. simpl.
  rewrite bool_decide_eq_false_2; [by rewrite Hr|].
  rewrite Hnew. by intros [? ?].
Qed.

(** X27. The idempotency check does not cover overlapping calls.  When a
    call for a new key sleeps (its first draw is in [0.3, 0.5)) and a second
    call with the same key arrives before it wakes and records at once
    (first draw at least 0.5), both are answered 'recorded', and when the
    first call wakes it overwrites what the second recorded: the map ends
    with the first call's email and amount, dated at the wake-up. *)
Theorem overlapping_calls_are_both_recorded
    (db : gmap string StoredTransaction) (k e1 e2 : string) (a1 a2 : Q)
    (r1 d1 r2 d2 : Q) (t1 t2 t3 : Z) (given : list Response) :
  k ≠ "" → e1 ≠ "" → e2 ≠ "" → ¬ (a1 == 0)%Q → ¬ (a2 == 0)%Q →
  db !! k = None →
  Qltb r1 lit_0_3 = false → Qltb r1 lit_0_5 = true →
  Qltb r2 lit_0_5 = false →
  let c1 := mkCall (Fields (Some e1) (Some a1) (Some k)) r1 d1 t1 in
  let c2 := mkCall (Fields (Some e2) (Some a2) (Some k)) r2 d2 t2 in
  store (server_run [Arrives c1; Arrives c2] (mkServer db [] given)) !! k
    = Some (mkStoredTransaction e2 a2 t2)
  ∧ store (server_run [Arrives c1; Arrives c2; Wakes 0 t3] (mkServer db [] given)) !! k
    = Some (mkStoredTransaction e1 a1 t3)
  ∧ answered (server_run [Arrives c1; Arrives c2; Wakes 0 t3] (mkServer db [] given))
    = given
      ++ [ mkResponse 200 (SuccessBody "Transaction recorded successfully" "success" k);
           mkResponse 200 (SuccessBody "Transaction recorded successfully" "success" k) ].
Proof.
  intros Hk He1 He2 Ha1 Ha2 Hnew Hr1 Hr1' Hr2 c1 c2.
  pose proof (Qltb_0_3_0_5 r2 Hr2) as Hr2'.
  assert (server_step (mkServer db [] given) (Arrives c1)
          = mkServer db [mkSleeper k e1 a1 d1] given) as Hfirst.
  { subst c1. cbn [server_step call_body call_random call_delay_random call_now store].
    rewrite POST_begin_new_key by done. by rewrite Hr1'. }
  assert (server_step (mkServer db [mkSleeper k e1 a1 d1] given) (Arrives c2)
          = mkServer (<[k := mkStoredTransaction e2 a2 t2]> db) [mkSleeper k e1 a1 d1]
              (given ++ [mkResponse 200
                           (SuccessBody "Transaction recorded successfully" "success" k)]))
    as Hsecond.
  { subst c2. cbn [server_step call_body call_random call_delay_random call_now store].
    rewrite POST_begin_new_key by done. by rewrite Hr2. }
  unfold server_run. cbn [foldl]. rewrite Hfirst, Hsecond. simpl.
  split; [by rewrite lookup_insert_eq|].
  split; [by rewrite lookup_insert_eq|]. by rewrite <- app_assoc.
Qed.

Lemma overlapping_calls_are_both_recorded_witness :
  store (server_run
           [Arrives (mkCall (Fields (Some "a@b.c") (Some 25%Q) (Some "K5")) (4 # 10) 0 100);
            Arrives (mkCall (Fields (Some "x@y.z") (Some 99%Q) (Some "K5")) (9 # 10) 0 200)]
           (mkServer ∅ [] [])) !! "K5"
    = Some (mkStoredTransaction "x@y.z" 99 200)
  ∧ store (server_run
             [Arrives (mkCall (Fields (Some "a@b.c") (Some 25%Q) (Some "K5")) (4 # 10) 0 100);
              Arrives (mkCall (Fields (Some "x@y.z") (Some 99%Q) (Some "K5")) (9 # 10) 0 200);
              Wakes 0 7000]
             (mkServer ∅ [] [])) !! "K5"
    = Some (mkStoredTransaction "a@b.c" 25 7000).
Proof.
  destruct (overlapping_calls_are_both_recorded ∅ "K5" "a@b.c" "x@y.z" 25 99
              (4 # 10) 0 (9 # 10) 0 100 200 7000 []) as (H1 & H2 & _);
    [done|done|done|by vm_compute|by vm_compute|done|done|done|done|].
  split; [exact H1|exact H2].
Defined.

(** X10. Whatever calls are served from an empty map, every recorded
    transaction was carried by one of them: a body with this key, a
    non-empty email, an amount other than 0, recorded at that call's time. *)
Theorem recorded_transactions_come_from_valid_calls (calls : list Call)
    (k : string) (tx : StoredTransaction) :
  serve calls ∅ !! k = Some tx →
  k ≠ "" ∧ st_email tx ≠ "" ∧ ¬ (st_amount tx == 0)%Q
  ∧ ∃ c, c ∈ calls
         ∧ call_body c = Fields (Some (st_email tx)) (Some (st_amount tx)) (Some k)
         ∧ call_now c = st_date tx.
Proof.
  revert k tx. induction calls as [|c calls IH] using rev_ind; intros k tx.
  - simpl. by rewrite lookup_empty.
  - unfold serve. rewrite foldl_app. fold (serve calls ∅). simpl. unfold handle.
    destruct (POST_records (call_body c) (call_random c) (call_delay_random c)
                (call_now c) (serve calls ∅))
      as [-> | (e & a & k' & Hbody & He & Ha & Hk' & _ & ->)].
    + intros Hk. destruct (IH k tx Hk) as (H1 & H2 & H3 & c' & Hc' & Hb).
      do 3 (split; [done|]). exists c'. split; [apply elem_of_app; by left|done].
    + destruct (decide (k' = k)) as [-> | Hne].
      * rewrite lookup_insert_eq. intros [= <-]. simpl.
        do 3 (split; [done|]). exists c.
        split; [apply elem_of_app; right; apply elem_of_cons; by left|done].
      * rewrite lookup_insert_ne by done. intros Hk.
        destruct (IH k tx Hk) as (H1 & H2 & H3 & c' & Hc' & Hb).
        do 3 (split; [done|]). exists c'. split; [apply elem_of_app; by left|done].
Qed.

Lemma recorded_transactions_come_from_valid_calls_witness :
  "K7" ≠ "" ∧ "p@q.r" ≠ "" ∧ ¬ (40 == 0)%Q.
Proof.
  destruct (recorded_transactions_come_from_valid_calls
              [mkCall (Fields (Some "p@q.r") (Some 40%Q) (Some "K7")) (9 # 10) 0 1700000000009]
              "K7" (mkStoredTransaction "p@q.r" 40 1700000000009))
    as (H1 & H2 & H3 & _).
  - vm_compute. reflexivity.
  - split; [exact H1|]. split; [exact H2|exact H3].
Defined.

(** X11. A 200 answer means the key is on record: after it, the map holds a
    transaction for the key the request carried. *)
Theorem success_means_recorded (req : RequestBody) (random delay_random : Q) (now : Z)
    (db : gmap string StoredTransaction) :
  http_status (response (POST req random delay_random now db)) = 200 →
  ∃ k, key_of req = Some k
       ∧ is_Some (processedTransactions (POST req random delay_random now db) !! k).
Proof.
  destruct req as [| |email amount key]; simpl; [done..|].
  destruct (falsy_string email || falsy_number amount || falsy_string key) eqn:Hv;
    [done|].
  apply orb_false_iff in Hv as [_ Hkey].
  destruct key as [k|]; [|done]. simpl.
  case_bool_decide as Hin; simpl.
  - intros _. by exists k.
  - destruct (Qltb random lit_0_3); simpl; [done|]. intros _. exists k.
    split; [done|]. rewrite lookup_insert_eq. by eexists.
Qed.

Lemma success_means_recorded_witness :
  ∃ k, Some "K9" = Some k
       ∧ is_Some (processedTransactions
                    (POST (Fields (Some "a@b.c") (Some 5%Q) (Some "K9")) (9 # 10) 0
                          1700000000001 one_accepted) !! k).
Proof.
  apply (success_means_recorded (Fields (Some "a@b.c") (Some 5%Q) (Some "K9"))).
  reflexivity.
Defined.

(** X12. The handler sleeps only on the way to a recording: it awaits its
    delay only for a request that passed the validation, with a key that is
    not recorded, and a first draw that is not below 0.3 but below 0.5 (a
    400, a 500, a 503 and a replay are answered at once); the delay is
    computed from the second draw alone; and when the delay is over the
    handler records the request under the clock of that moment and answers
    200 without looking at the map again, whatever it holds by then. *)
Theorem sleeps_only_before_recording (req : RequestBody) (random delay_random : Q)
    (now : Z) (db : gmap string StoredTransaction) (w : Sleeper) :
  POST_begin req random delay_random now db = Awaits w →
  req = Fields (Some (sl_email w)) (Some (sl_amount w)) (Some (sl_key w))
  ∧ sl_email w ≠ "" ∧ ¬ (sl_amount w == 0)%Q ∧ sl_key w ≠ ""
  ∧ db !! sl_key w = None
  ∧ Qltb random lit_0_3 = false ∧ Qltb random lit_0_5 = true
  ∧ sl_draw w = delay_random
  ∧ (∀ later db',
       processedTransactions (POST_resume w later db') !! sl_key w
         = Some (mkStoredTransaction (sl_email w) (sl_amount w) later)
       ∧ (∀ k', k' ≠ sl_key w →
            processedTransactions (POST_resume w later db') !! k' = db' !! k')
       ∧ response (POST_resume w later db')
         = mkResponse 200
             (SuccessBody "Transaction recorded successfully" "success" (sl_key w)))
  ∧ POST req random delay_random now db = POST_resume w now db.
Proof.
  intros Hsleeps.
  pose proof (POST_begin_cases req random delay_random now db) as Hcases.
  pose proof (POST_begin_resume req random delay_random now db) as Hwhole.
  rewrite Hsleeps in Hcases, Hwhole.
  destruct Hcases as (H1 & H2 & H3 & H4 & H5 & H6 & H7 & H8).
  do 8 (split; [done|]). split; [|done].
  intros later db'. simpl. split; [by rewrite lookup_insert_eq|]. split; [|done].
  intros k' Hne. by rewrite lookup_insert_ne.
Qed.

Lemma sleeps_only_before_recording_witness :
  Qltb (4 # 10) lit_0_3 = false ∧ Qltb (4 # 10) lit_0_5 = true
  ∧ one_accepted !! "K9" = None.
Proof.
  destruct (sleeps_only_before_recording
              (Fields (Some "a@b.c") (Some 5%Q) (Some "K9")) (4 # 10) (1 # 2)
              1700000000001 one_accepted (mkSleeper "K9" "a@b.c" 5 (1 # 2)))
    as (_ & _ & _ & _ & Hnew & Hlow & Hhigh & _).
  - reflexivity.
  - split; [exact Hlow|]. split; [exact Hhigh|exact Hnew].
Defined.

End BackendExtra.

(** * Further properties of the submission ledger *)

Module LedgerExtra.
Import Ledger LedgerProofs.

(** What the three primitive steps of a chain keep, the chain keeps. *)
Lemma chain_invariant (Q : Page → Prop) :
  (∀ e s, Q s → Q (emit e s)) →
  (∀ line s, Q s → Q (print line s)) →
  (∀ id st s, Q s → Q (updateTransactionStatus id st s)) →
  ∀ net tx n attempt s, (MAX_RETRIES - attempt)%nat = n →
    Q s → Q (processTransaction net tx attempt s).
Proof.
  intros Hemit Hprint Hupdate net tx.
  assert (∀ attempt s, Q s → Q (sent tx attempt s)) as Hsent.
  { intros attempt s Hs. unfold sent. apply Hemit.
    destruct (1 <? attempt)%nat; [by apply Hupdate|done]. }
  induction n as [|n IH]; intros attempt s Hn Hs.
  all: destruct (net (tx_id tx) attempt) as [o|] eqn:Hnet;
    [|rewrite (processTransaction_unsettled _ _ _ _ Hnet); by apply Hsent].
  all: destruct (settle_cases (tx_id tx) o (sent tx attempt s))
         as [[name Hthrow]|(st & Hst & Hdone)];
    [|rewrite (processTransaction_answered _ _ _ _ _ _ Hnet Hdone);
      by apply Hupdate, Hsent].
  all: rewrite (processTransaction_thrown _ _ _ _ _ _ Hnet Hthrow).
  all: destruct (decide (attempt < MAX_RETRIES)%nat); try lia.
  - by apply Hupdate, Hprint, Hsent.
  - apply IH; [lia|]. by apply Hemit, Hprint, Hsent.
Qed.

Lemma set_status_lookup (id : string) (st : TransactionStatus)
    (l : list Transaction) (i : nat) :
  set_status id st l !! i
    = (fun t => if String.eqb (tx_id t) id then with_status st t else t) <$> l !! i.
Proof. unfold set_status. apply list_lookup_fmap. Qed.

Lemma replay_entries (id : string) (updates : list TransactionStatus)
    (l : list Transaction) (i : nat) (t : Transaction) :
  l !! i = Some t →
  ∃ t', replay id updates l !! i = Some t' ∧ same_operation id t t'.
Proof.
  revert l t. induction updates as [|st updates IH]; intros l t Ht; simpl.
  - exists t. by repeat split.
  - destruct (IH (set_status id st l)
                 (if String.eqb (tx_id t) id then with_status st t else t))
      as (t' & Ht' & Hid & Hemail & Hamount & Hts & Hother).
    { by rewrite set_status_lookup, Ht. }
    exists t'. split; [done|].
    destruct (String.eqb_spec (tx_id t) id) as [Heq|Hne]; simpl in *.
    + by repeat split.
    + by repeat split.
Qed.

Lemma replay_length (id : string) (updates : list TransactionStatus) (l : list Transaction) :
  length (replay id updates l) = length l.
Proof.
  revert l. induction updates as [|st updates IH]; intros l; [done|].
  simpl. rewrite IH. unfold set_status. apply length_map.
Qed.

Lemma chain_only_changes_own_status_core (net : Network) (tx : Transaction)
    (attempt : nat) (s : Page) :
  (1 ≤ attempt)%nat →
  length (transactions (processTransaction net tx attempt s)) = length (transactions s)
  ∧ ∀ i t, transactions s !! i = Some t →
      ∃ t', transactions (processTransaction net tx attempt s) !! i = Some t'
            ∧ same_operation (tx_id tx) t t'.
Proof.
  intros Hpos.
  destruct (chain_shape net tx _ attempt s eq_refl Hpos)
    as (new & k & final & _ & -> & _).
  split; [apply replay_length|].
  intros i t Ht. by apply replay_entries.
Qed.

(** X13. A chain neither adds nor removes nor reorders ledger entries; it leaves
    the entries of other tokens as they are, and of its own token it
    changes nothing but the status: id, email, amount and timestamp stay. *)
Theorem chain_only_changes_own_status (net : Network) (tx : Transaction)
    (attempt : nat) (s : Page) :
  (1 ≤ attempt)%nat →
  length (transactions (processTransaction net tx attempt s)) = length (transactions s)
  ∧ ∀ i t, transactions s !! i = Some t →
      ∃ t', transactions (processTransaction net tx attempt s) !! i = Some t'
            ∧ tx_id t' = tx_id t ∧ tx_email t' = tx_email t
            ∧ tx_amount t' = tx_amount t ∧ tx_timestamp t' = tx_timestamp t
            ∧ (tx_id t ≠ tx_id tx → t' = t).
Proof.
  intros Hpos.
  destruct (chain_only_changes_own_status_core net tx attempt s Hpos) as [Hlen Hentries].
  split; [done|]. intros i t Ht.
  destruct (Hentries i t Ht) as (t' & Ht' & Hsame). exists t'. split; [done|].
  exact Hsame.
Qed.

Lemma chain_only_changes_own_status_witness :
  length (transactions (processTransaction always_503 k1 1 (initial NoItem)))
    = length (transactions (initial NoItem)).
Proof.
  apply (chain_only_changes_own_status always_503 k1 1 (initial NoItem)). lia.
Defined.

Lemma settle_answer (id : string) (code : Z) (s : Page) :
  code ≠ 503 →
  settle id (Responds code) s = (updateTransactionStatus id (verdict code) s, Normal).
Proof.
  intros Hcode. unfold settle, verdict.
  destruct (Z.eqb_spec code 503); [done|]. by destruct (response_ok code).
Qed.

Lemma chain_until_answer (net : Network) (tx : Transaction) (n : nat) (code : Z) :
  net (tx_id tx) n = Some (Responds code) → code ≠ 503 → (n ≤ MAX_RETRIES)%nat →
  ∀ d attempt s, n = (attempt + d)%nat → (1 ≤ attempt)%nat →
    (∀ k, (attempt ≤ k < n)%nat → ∃ o, net (tx_id tx) k = Some o ∧ transient o) →
    ∃ new,
      effects (processTransaction net tx attempt s) = effects s ++ new
      ∧ attempts (tx_id tx) new = seq attempt (S d)
      ∧ retry_delays (tx_id tx) new = replicate d RETRY_DELAY
      ∧ ∀ t, t ∈ transactions (processTransaction net tx attempt s) →
             tx_id t = tx_id tx → tx_status t = verdict code.
Proof.
  intros Hnet Hcode Hmax. induction d as [|d IH]; intros attempt s Hn Hpos Hfail.
  - rewrite Nat.add_0_r in Hn. subst attempt.
    rewrite (processTransaction_answered net tx n s _ (verdict code) Hnet
               (settle_answer _ _ _ Hcode)).
    rewrite effects_update, effects_sent, <- !app_assoc.
    eexists. split; [done|].
    split; [destruct (1 <? n)%nat; by project|].
    split; [destruct (1 <? n)%nat; by project|].
    intros t Ht. by apply status_after_update in Ht as [? _].
  - rewrite processTransaction_retry; [|apply Hfail; lia|lia].
    destruct (IH (S attempt)
                 (emit (SetTimeout tx (S attempt) RETRY_DELAY)
                       (print (retry_line tx attempt) (sent tx attempt s))))
      as (new & Heff & Hatt & Hdel & Hfinal); [lia|lia| |].
    { intros k Hk. apply Hfail. lia. }
    rewrite Heff, effects_emit, effects_print, effects_sent, <- !app_assoc.
    eexists. split; [done|].
    split; [destruct (1 <? attempt)%nat; project; by rewrite Hatt|].
    split; [destruct (1 <? attempt)%nat; project; by rewrite Hdel|].
    done.
Qed.

(** X14. The chain stops at the first answer that is not a transient failure:
    if the attempts before the [n]-th fail transiently and the [n]-th
    (at most the fifth) is answered with a status other than 503, exactly
    the attempts 1..n are made, each retry after 2000 ms, and the operation
    ends [success] for a 2xx answer and [error] for any other, which is
    not retried. *)
Theorem chain_stops_at_first_answer (net : Network) (tx : Transaction) (s : Page)
    (n : nat) (code : Z) :
  (1 ≤ n ≤ MAX_RETRIES)%nat →
  (∀ k, (1 ≤ k < n)%nat → ∃ o, net (tx_id tx) k = Some o ∧ transient o) →
  net (tx_id tx) n = Some (Responds code) →
  code ≠ 503 →
  attempts (tx_id tx) (added s (processTransaction net tx 1 s)) = seq 1 n
  ∧ retry_delays (tx_id tx) (added s (processTransaction net tx 1 s))
    = replicate (n - 1) 2000
  ∧ ∀ t, t ∈ transactions (processTransaction net tx 1 s) → tx_id t = tx_id tx →
         tx_status t = if (200 <=? code) && (code <=? 299) then success else error.
Proof.
  intros [Hlo Hhi] Hfail Hnet Hcode.
  destruct (chain_until_answer net tx n code Hnet Hcode Hhi (n - 1) 1 s)
    as (new & Heff & Hatt & Hdel & Hfinal); [lia|lia|done|].
  rewrite (added_app _ _ _ Heff).
  replace (S (n - 1)) with n in Hatt by lia. done.
Qed.

Lemma chain_stops_at_first_answer_witness :
  attempts "K1" (added (initial NoItem)
                       (processTransaction third_time_lucky k1 1 (initial NoItem)))
    = [1; 2; 3]%nat.
Proof.
  apply (chain_stops_at_first_answer third_time_lucky k1 (initial NoItem) 3 200).
  - unfold MAX_RETRIES. lia.
  - intros k Hk. exists (Responds 503). split; [|right; reflexivity].
    unfold third_time_lucky. assert ((k <? 3)%nat = true) as ->; [|reflexivity].
    apply Nat.ltb_lt. lia.
  - reflexivity.
  - lia.
Defined.

(** The chain when the attempts 1 to [MAX_RETRIES] all fail transiently. *)
Lemma chain_exhausted (net : Network) (tx : Transaction) (s : Page) :
  (∀ k, (1 ≤ k ≤ MAX_RETRIES)%nat → ∃ o, net (tx_id tx) k = Some o ∧ transient o) →
  ∃ new,
    effects (processTransaction net tx 1 s) = effects s ++ new
    ∧ attempts (tx_id tx) new = seq 1 MAX_RETRIES
    ∧ ∀ t, t ∈ transactions (processTransaction net tx 1 s) →
           tx_id t = tx_id tx → tx_status t = error.
Proof.
  intros Hall.
  do 4 (rewrite processTransaction_retry; [|apply Hall; unfold MAX_RETRIES; lia
                                            |unfold MAX_RETRIES; lia]).
  rewrite processTransaction_exhausted;
    [|apply Hall; unfold MAX_RETRIES; lia|unfold MAX_RETRIES; lia].
  eexists. split; [|split].
  - rewrite effects_update, effects_print.
    repeat (rewrite effects_sent, ?effects_emit, ?effects_print).
    simpl. by rewrite <- !app_assoc.
  - by project.
  - intros t Ht. by apply status_after_update in Ht as [? _].
Qed.

(** *** Persistence *)

Lemma setTransactions_in_sync (f : list Transaction → list Transaction) (s : Page) :
  isLoaded s = true → in_sync (setTransactions f s).
Proof. intros Hloaded. unfold setTransactions, save_logs. simpl. by rewrite Hloaded. Qed.

Lemma chain_in_sync (net : Network) (tx : Transaction) (attempt : nat) (s : Page) :
  in_sync s → in_sync (processTransaction net tx attempt s).
Proof.
  apply (chain_invariant in_sync) with (n := (MAX_RETRIES - attempt)%nat); [done..| |done].
  intros id st s0 [Hloaded _]. by apply setTransactions_in_sync.
Qed.

Lemma mount_in_sync (net : Network) (logs : stored (list Transaction)) :
  in_sync (mount net logs).
Proof.
  unfold mount.
  assert (∀ resumed s, in_sync s →
            in_sync (foldl (fun acc tx => processTransaction net tx 1 acc) s resumed))
    as Hchains.
  { induction resumed as [|tx resumed IH]; intros s Hs; [done|].
    simpl. by apply IH, chain_in_sync. }
  destruct (load (initial logs)) as [s1 resumed] eqn:Hload.
  apply Hchains.
  assert (isLoaded s1 = true) as Hloaded.
  { unfold load in Hload. destruct (if truthy_item _ then _ else _) as [s0 r0].
    by injection Hload as <- _. }
  unfold in_sync, save_logs. by rewrite Hloaded.
Qed.

Lemma perform_in_sync (net : Network) (s : Page) (a : UserAction) :
  in_sync s → in_sync (perform net s a).
Proof.
  intros [Hloaded Hsaved]. destruct a as [e a|key now|confirmed]; simpl.
  - done.
  - unfold handleSubmit. destruct (_ || _); [done|].
    apply chain_in_sync.
    destruct (setTransactions_in_sync
                (fun prev => mkTransaction key (email s) (amount s) pending now :: prev)
                s Hloaded) as [H1 H2].
    by split.
  - unfold clearLogs. destruct confirmed; [|done].
    by apply setTransactions_in_sync.
Qed.

(** X15. Nothing of the ledger is lost by a restart: after a process start over
    any stored item and any sequence of typing, submissions and clearings
    (with all the status updates of the chains they start), the item holds
    exactly the ledger, so that the load effect of the next start installs
    the same ledger. *)
Theorem ledger_survives_restart (net : Network) (logs : stored (list Transaction))
    (actions : list UserAction) :
  tx_logs (session net logs actions) = Saved (transactions (session net logs actions))
  ∧ transactions (load (initial (tx_logs (session net logs actions)))).1
    = transactions (session net logs actions).
Proof.
  assert (in_sync (session net logs actions)) as [Hloaded Hsaved].
  { unfold session. induction actions as [|a actions IH] using rev_ind.
    - apply mount_in_sync.
    - rewrite foldl_app. simpl. by apply perform_in_sync. }
  split; [done|]. rewrite Hsaved. unfold load, load_try. simpl.
  set (resumed := filter _ _). generalize resumed. clear.
  intros resumed.
  assert (∀ l s, transactions
            (foldl (fun acc tx =>
                      print (console_log ("[Resume] Restarting transaction " +:+ tx_id tx)) acc)
                   s l) = transactions s) as Hprints.
  { induction l as [|x l IHl]; intros s; [done|]. simpl. by rewrite IHl. }
  by rewrite Hprints.
Qed.

(** X16. [clearLogs]: once the user has confirmed, the ledger and the item are
    empty, and a chain that is still running for a cleared operation brings
    nothing back: both stay empty. *)
Theorem cleared_operations_stay_cleared (net : Network) (tx : Transaction)
    (attempt : nat) (s : Page) :
  isLoaded s = true →
  (1 ≤ attempt)%nat →
  transactions (clearLogs true s) = []
  ∧ tx_logs (clearLogs true s) = Saved []
  ∧ transactions (processTransaction net tx attempt (clearLogs true s)) = []
  ∧ tx_logs (processTransaction net tx attempt (clearLogs true s)) = Saved [].
Proof.
  intros Hloaded Hpos.
  assert (in_sync (clearLogs true s)) as Hsync
    by (by apply setTransactions_in_sync).
  assert (transactions (clearLogs true s) = []) as Hempty.
  { unfold clearLogs. by rewrite transactions_setTransactions. }
  destruct Hsync as [Hl Hs]. split; [done|]. split; [by rewrite Hs, Hempty|].
  destruct (chain_only_changes_own_status_core net tx attempt (clearLogs true s) Hpos)
    as [Hlen _].
  assert (transactions (processTransaction net tx attempt (clearLogs true s)) = [])
    as Hstill.
  { apply nil_length_inv. by rewrite Hlen, Hempty. }
  split; [done|].
  destruct (chain_in_sync net tx attempt (clearLogs true s)) as [_ Hsaved]; [by split|].
  by rewrite Hsaved, Hstill.
Qed.

Lemma cleared_operations_stay_cleared_witness :
  transactions (processTransaction always_503 k1 1
                  (clearLogs true (mount always_503 (Saved saved_ledger)))) = [].
Proof.
  destruct (cleared_operations_stay_cleared always_503 k1 1
              (mount always_503 (Saved saved_ledger)))
    as (_ & _ & H & _).
  - vm_compute. reflexivity.
  - lia.
  - exact H.
Defined.

End LedgerExtra.

(** * The ledger's state machine over a whole run *)

Module LedgerMachine.
Import Ledger LedgerProofs LedgerExtra.

(** *** What one chain does to the ledger *)













(** *** The chains of a process start *)



(** *** The user's actions *)





(** *** From the updates of one chain to the machine *)






(** The run of the witness: K1 is resumed and confirmed at its third
    attempt, K0 is left alone, K2 is entered and confirmed. *)
Example resumed_and_submitted :
  let s := session third_time_lucky (Saved saved_ledger)
             [TypeIn "x@y.z" "3"; Submit "K2" 1700000000500] in
  status_updates "K1" (effects s) = [retrying; retrying; success]
  ∧ status_updates "K0" (effects s) = []
  ∧ status_updates "K2" (effects s) = [retrying; retrying; success]
  ∧ (fun t => (tx_id t, tx_status t)) <$> transactions s
    = [("K2", success); ("K1", success); ("K0", success)].
Proof. vm_compute. done. Qed.

End LedgerMachine.

(** * The chain against the backend *)

Module EndToEndProofs.
Import Ledger Backend EndToEnd LedgerProofs LedgerExtra BackendExtra.

(** Among the first [m] answers either all are 503 or there is a first one
    that is not. *)
Lemma first_answer (f : nat → Z) (m : nat) :
  (∀ k, (1 ≤ k ≤ m)%nat → f k = 503)
  ∨ ∃ n, (1 ≤ n ≤ m)%nat ∧ f n ≠ 503 ∧ ∀ k, (1 ≤ k < n)%nat → f k = 503.
Proof.
  induction m as [|m [Hall | (n & Hn & Hfn & Hbefore)]].
  - left. intros k Hk. lia.
  - destruct (decide (f (S m) = 503)) as [Heq | Hne].
    + left. intros k Hk. destruct (decide (k = S m)) as [-> | Hk']; [done|].
      apply Hall. lia.
    + right. exists (S m). split; [lia|]. split; [done|].
      intros k Hk. apply Hall. lia.
  - right. exists n. split; [lia|]. by split.
Qed.

(** Calls answered 503 leave the map as it is. *)
Lemma serve_unavailable (calls : list Call) (db : gmap string StoredTransaction) :
  (∀ c, c ∈ calls → http_status (response (handle db c)) = 503) →
  serve calls db = db.
Proof.
  induction calls as [|c calls IH]; intros Hall; [done|]. simpl.
  assert (processedTransactions (handle db c) = db) as ->.
  { destruct (handle_cases db c) as [[Hsame _] | [H200 _]]; [done|].
    rewrite (Hall c) in H200; [done|]. apply elem_of_cons. by left. }
  apply IH. intros c' Hc'. apply Hall, elem_of_cons. by right.
Qed.

Section Wire.

Variable parseFloat : string → option Q.

Lemma calls_before (tx : Transaction) (dr : Draws) (db : gmap string StoredTransaction)
    (n i : nat) (c : Call) :
  (∀ k, (1 ≤ k < n)%nat →
        http_status (response (handle db (call_of parseFloat tx dr k))) = 503) →
  (i < n)%nat →
  c ∈ take i (call_of parseFloat tx dr <$> seq 1 n) →
  http_status (response (handle db c)) = 503.
Proof.
  intros Hbefore Hi Hc. apply list_elem_of_lookup in Hc as [j Hj].
  apply lookup_take_Some in Hj as [Hj Hji].
  rewrite list_lookup_fmap in Hj.
  destruct (seq 1 n !! j) as [k|] eqn:Hk; [|done].
  apply lookup_seq in Hk as [-> _]. simpl in Hj. injection Hj as <-.
  apply Hbefore. lia.
Qed.

(** X17. Effectively once.  When every request of a chain reaches the handler:
    at most [MAX_RETRIES] calls are served, each answered as the handler
    answers on the map the earlier calls have left (which is the map the
    chain started on); the chain records at most one transaction, under its
    own token and with the email and amount of the operation; and the
    operation ends [success] with the token on record, or [error] with the
    map as it was before the chain. *)
Theorem effectively_once (db : gmap string StoredTransaction) (dr : Draws)
    (tx : Transaction) (s : Page) :
  let s' := processTransaction (backend_net parseFloat db dr tx) tx 1 s in
  let calls := calls_of parseFloat tx dr s s' in
  (1 ≤ length calls ≤ MAX_RETRIES)%nat
  ∧ (∀ i c, calls !! i = Some c → handle (serve (take i calls) db) c = handle db c)
  ∧ (serve calls db = db
     ∨ ∃ c amount,
         last calls = Some c
         ∧ parseFloat (tx_amount tx) = Some amount
         ∧ db !! tx_id tx = None
         ∧ serve calls db
           = <[tx_id tx := mkStoredTransaction (tx_email tx) amount (call_now c)]> db)
  ∧ ∀ t, t ∈ transactions s' → tx_id t = tx_id tx →
      (tx_status t = success ∧ is_Some (serve calls db !! tx_id tx))
      ∨ (tx_status t = error ∧ serve calls db = db).
Proof.
  intros s' calls.
  set (f := fun n => http_status (response (handle db (call_of parseFloat tx dr n)))).
  assert (∀ n, backend_net parseFloat db dr tx (tx_id tx) n = Some (Responds (f n)))
    as Hnet by done.
  destruct (first_answer f MAX_RETRIES) as [Hall | (n & Hn & Hfn & Hbefore)].
  - destruct (chain_exhausted (backend_net parseFloat db dr tx) tx s)
      as (new & Heff & Hatt & Hfinal).
    { intros k Hk. exists (Responds 503). split; [|by right].
      by rewrite Hnet, (Hall k Hk). }
    assert (calls = call_of parseFloat tx dr <$> seq 1 MAX_RETRIES) as Hcalls.
    { subst calls s'. unfold calls_of. by rewrite (added_app _ _ _ Heff), Hatt. }
    assert (∀ c, c ∈ calls → http_status (response (handle db c)) = 503) as H503.
    { intros c Hc. rewrite Hcalls in Hc.
      apply list_elem_of_fmap in Hc as (k & -> & Hk).
      apply elem_of_seq in Hk. apply Hall. lia. }
    split; [rewrite Hcalls, length_fmap, length_seq; unfold MAX_RETRIES; lia|].
    split.
    { intros i c Hc. rewrite serve_unavailable; [done|].
      intros c' Hc'. apply H503. by apply (subseteq_take i calls). }
    split; [left; by apply serve_unavailable|].
    intros t Ht Hid. right. split; [by apply Hfinal|by apply serve_unavailable].
  - destruct (chain_until_answer (backend_net parseFloat db dr tx) tx n (f n)
                (Hnet n) Hfn (proj2 Hn) (n - 1) 1 s)
      as (new & Heff & Hatt & _ & Hfinal); [lia|lia| |].
    { intros k Hk. exists (Responds 503). split; [|by right].
      by rewrite Hnet, (Hbefore k Hk). }
    replace (S (n - 1)) with n in Hatt by lia.
    assert (calls = call_of parseFloat tx dr <$> seq 1 n) as Hcalls.
    { subst calls s'. unfold calls_of. by rewrite (added_app _ _ _ Heff), Hatt. }
    assert (seq 1 n = seq 1 (n - 1) ++ [n]) as Hseq.
    { replace n with ((n - 1) + 1)%nat at 1 by lia. rewrite seq_app. simpl.
      do 2 f_equal. lia. }
    assert (serve calls db
            = processedTransactions (handle db (call_of parseFloat tx dr n))) as Hserve.
    { rewrite Hcalls, Hseq, fmap_app. unfold serve. rewrite foldl_app.
      fold (serve (call_of parseFloat tx dr <$> seq 1 (n - 1)) db).
      rewrite serve_unavailable; [done|].
      intros c Hc. apply list_elem_of_fmap in Hc as (k & -> & Hk).
      apply elem_of_seq in Hk. apply Hbefore. lia. }
    assert (last calls = Some (call_of parseFloat tx dr n)) as Hlast.
    { rewrite Hcalls, Hseq, fmap_app. apply last_snoc. }
    split; [rewrite Hcalls, length_fmap, length_seq; lia|].
    split.
    { intros i c Hc. rewrite serve_unavailable; [done|].
      intros c' Hc'. rewrite Hcalls in Hc'.
      apply (calls_before tx dr db n i); [done| |done].
      apply lookup_lt_Some in Hc. by rewrite Hcalls, length_fmap, length_seq in Hc. }
    destruct (handle_cases db (call_of parseFloat tx dr n))
      as [[Hsame Hstatus] | [H200 (e & a & k & Hbody & Hnone & Hins)]].
    + split; [left; by rewrite Hserve|].
      intros t Ht Hid. specialize (Hfinal t Ht Hid). rewrite Hfinal.
      unfold verdict, response_ok. fold (f n) in Hstatus.
      destruct Hstatus as [-> | [-> | [H503 | [-> (k & Hkey & Hin)]]]]; simpl.
      * right. split; [done|]. by rewrite Hserve.
      * right. split; [done|]. by rewrite Hserve.
      * done.
      * left. split; [done|]. rewrite Hserve, Hsame.
        simpl in Hkey. by injection Hkey as <-.
    + simpl in Hbody. injection Hbody as <- Hamount <-.
      split.
      { right. exists (call_of parseFloat tx dr n), a.
        split; [done|]. split; [done|]. split; [done|]. by rewrite Hserve, Hins. }
      intros t Ht Hid. specialize (Hfinal t Ht Hid). rewrite Hfinal.
      unfold verdict, response_ok. fold (f n) in H200. rewrite H200. simpl.
      left. split; [done|]. rewrite Hserve, Hins, lookup_insert_eq. by eexists.
Qed.

End Wire.

End EndToEndProofs.

(** * Further properties of the pagination handler and client *)

Module PaginationExtra.
Import Pagination PaginationProofs.

(** *** The handler *)

Lemma slice_subseteq {A} (l : list A) (start end_ : Z) : slice l start end_ ⊆ l.
Proof.
  unfold slice. etrans; [apply subseteq_take|apply subseteq_drop].
Qed.

Lemma slice_length {A} (l : list A) (start end_ : Z) :
  (Z.of_nat (length (slice l start end_))
   ≤ Z.max 0 (relative_index (Z.of_nat (length l)) end_
              - relative_index (Z.of_nat (length l)) start))%Z.
Proof.
  unfold slice. cbv zeta. rewrite length_take.
  generalize (relative_index (Z.of_nat (length l)) end_
              - relative_index (Z.of_nat (length l)) start)%Z.
  generalize (length (drop (Z.to_nat (relative_index (Z.of_nat (length l)) start)) l)).
  intros n z. lia.
Qed.

Lemma slice_window {A} (l : list A) (start width : Z) :
  (0 ≤ width)%Z → (Z.of_nat (length (slice l start (start + width))) ≤ width)%Z.
Proof.
  intros Hw. pose proof (slice_length l start (start + width)) as Hlen.
  unfold relative_index in Hlen. revert Hlen.
  destruct (Z.ltb_spec (start + width) 0), (Z.ltb_spec start 0); lia.
Qed.

Lemma FACTS_DB_length : length FACTS_DB = 50%nat.
Proof. unfold FACTS_DB. by rewrite length_fmap, length_seq. Qed.

(** X18. Whatever page is asked for and whatever the draws, the handler answers
    with at most twelve records, all of them records of the database. *)
Theorem GET_is_bounded (page : Z) (shrink_random overlap_random : Q) :
  (length (GET page shrink_random overlap_random) ≤ 12)%nat
  ∧ ∀ x, x ∈ GET page shrink_random overlap_random → x ∈ FACTS_DB.
Proof.
  unfold GET. destruct (_ >=? _); [split; [simpl; lia|by intros x Hx%elem_of_nil]|].
  set (start := ((page - 1) * PAGE_SIZE)%Z).
  set (result := slice FACTS_DB start (start + PAGE_SIZE)).
  assert (length result ≤ 10)%nat as Hresult.
  { pose proof (slice_window FACTS_DB start PAGE_SIZE ltac:(unfold PAGE_SIZE; lia)) as H10.
    fold result in H10. unfold PAGE_SIZE in H10. lia. }
  assert (result ⊆ FACTS_DB) as Hin by apply slice_subseteq.
  set (served := if _ && _ then slice result 0 7 else result).
  assert ((length served ≤ 10)%nat ∧ served ⊆ FACTS_DB) as [Hserved Hsin].
  { subst served. destruct (_ && _); [|done]. split.
    - pose proof (slice_window result 0 7 ltac:(lia)) as H7.
      change (0 + 7)%Z with 7%Z in H7. lia.
    - etrans; [apply slice_subseteq|done]. }
  clearbody served.
  destruct (_ && _); [|split; [lia|intros x Hx; by apply Hsin]]. split.
  - rewrite length_app.
    pose proof (slice_window FACTS_DB (start - 2) 2 ltac:(lia)) as Hprev.
    replace (start - 2 + 2)%Z with start in Hprev by lia. lia.
  - intros x Hx. apply elem_of_app in Hx as [Hx | Hx]; [|by apply Hsin].
    by apply (slice_subseteq FACTS_DB (start - 2) start).
Qed.

(** X19. Past the last page the handler answers with nothing, and the client
    marks the list finished without touching it. *)
Theorem beyond_the_data_finishes (page : Z) (shrink_random overlap_random : Q) (s : Page) :
  (6 ≤ page)%Z →
  GET page shrink_random overlap_random = []
  ∧ fetchPage_settle (Batch (GET page shrink_random overlap_random)) s
    = mkPage (items s) (Pagination.page s) finished (seenIds s).
Proof.
  intros Hpage.
  assert (GET page shrink_random overlap_random = []) as ->; [|done].
  unfold GET. rewrite FACTS_DB_length.
  destruct (Z.geb_spec ((page - 1) * PAGE_SIZE) (Z.of_nat 50)) as [_|Hlt]; [done|].
  unfold PAGE_SIZE in Hlt. lia.
Qed.

Lemma beyond_the_data_finishes_witness :
  GET 6 (9 # 10) (9 # 10) = []
  ∧ status (fetchPage_settle (Batch (GET 6 (9 # 10) (9 # 10))) initial) = finished.
Proof.
  destruct (beyond_the_data_finishes 6 (9 # 10) (9 # 10) initial) as [Hget Hsettle].
  - lia.
  - split; [exact Hget|]. rewrite Hsettle. reflexivity.
Defined.

(** *** The client *)

(** One turn of the [forEach]: a fact is appended unless its id is seen,
    and its id is seen afterwards. *)
Lemma dedupe_item_appends (acc : list Fact * gset string) (item : Fact) :
  ∃ new,
    (dedupe_item acc item).1 = acc.1 ++ new
    ∧ (dedupe_item acc item).2 = acc.2 ∪ list_to_set (f_id <$> new)
    ∧ f_id item ∈ (dedupe_item acc item).2.
Proof.
  unfold dedupe_item. case_decide as Hin.
  - exists []. rewrite app_nil_r. simpl. rewrite union_empty_r_L. done.
  - exists [item]. simpl. split; [done|]. split.
    + rewrite union_empty_r_L. apply (comm_L (∪)).
    + apply elem_of_union_l. by apply elem_of_singleton.
Qed.

(** What one batch does to the pair of the [forEach]: facts are appended,
    their ids join the seen ids, and every id of the batch is seen. *)
Lemma dedupe_appends (newBatch : list Fact) (acc : list Fact * gset string) :
  ∃ new,
    (foldl dedupe_item acc newBatch).1 = acc.1 ++ new
    ∧ (foldl dedupe_item acc newBatch).2 = acc.2 ∪ list_to_set (f_id <$> new)
    ∧ ∀ x, x ∈ newBatch → f_id x ∈ (foldl dedupe_item acc newBatch).2.
Proof.
  revert acc. induction newBatch as [|item rest IH]; intros acc.
  - exists []. simpl. rewrite app_nil_r, union_empty_r_L.
    split; [done|]. split; [done|]. by intros x Hx%elem_of_nil.
  - change (foldl dedupe_item acc (item :: rest))
      with (foldl dedupe_item (dedupe_item acc item) rest).
    destruct (IH (dedupe_item acc item)) as (new & Hitems & Hseen & Hall).
    destruct (dedupe_item_appends acc item) as (new0 & Hitems0 & Hseen0 & Hin0).
    exists (new0 ++ new). rewrite Hitems, Hseen, Hitems0, Hseen0.
    split; [by rewrite app_assoc|]. split.
    + by rewrite fmap_app, list_to_set_app_L, (assoc_L (∪)).
    + intros x [-> | Hx]%elem_of_cons.
      * apply elem_of_union_l. by rewrite <- Hseen0.
      * rewrite <- Hseen0, <- Hseen. by apply Hall.
Qed.

Lemma act_appends (s : Page) (a : Action) :
  seenIds s = list_to_set (f_id <$> items s) →
  ∃ new, items (act s a) = items s ++ new
         ∧ seenIds (act s a) = list_to_set (f_id <$> items (act s a))
         ∧ ∀ batch, a = Settle (Batch batch) →
             ∀ x, x ∈ batch → f_id x ∈ seenIds (act s a).
Proof.
  intros Hseen.
  destruct a as [| | |[| |[|item rest]]].
  - exists []. simpl. rewrite app_nil_r. split; [done|]. split; [done|]. by intros batch [=].
  - exists []. simpl. rewrite app_nil_r. split; [done|]. split; [done|]. by intros batch [=].
  - exists []. simpl. rewrite app_nil_r. split; [done|]. split; [done|]. by intros batch [=].
  - exists []. simpl. rewrite app_nil_r. split; [done|]. split; [done|]. by intros batch [=].
  - exists []. simpl. rewrite app_nil_r. split; [done|]. split; [done|]. by intros batch [=].
  - exists []. simpl. rewrite app_nil_r. split; [done|]. split; [done|].
    intros batch [= <-] x Hx. by apply elem_of_nil in Hx.
  - unfold act, fetchPage_settle.
    destruct (dedupe_appends (item :: rest) ([], seenIds s)) as (new & Hitems & Hs & Hall).
    fold (dedupe (item :: rest) (seenIds s)) in Hitems, Hs, Hall.
    destruct (dedupe (item :: rest) (seenIds s)) as [uniqueItems seen].
    simpl in *. subst uniqueItems. exists new. split; [done|]. split.
    + rewrite Hs, Hseen, fmap_app, list_to_set_app_L. done.
    + intros batch [= <-]. apply Hall.
Qed.

Lemma dedupe_from (newBatch : list Fact) (acc : list Fact * gset string) (x : Fact) :
  x ∈ (foldl dedupe_item acc newBatch).1 → x ∈ acc.1 ∨ x ∈ newBatch.
Proof.
  revert acc. induction newBatch as [|item rest IH]; intros acc; [by left|].
  cbn [foldl]. intros [Hin | Hin]%IH; [|right; by apply elem_of_cons; right].
  unfold dedupe_item in Hin. case_decide; [by left|].
  cbn [fst] in Hin. apply elem_of_app in Hin as [Hin | ->%list_elem_of_singleton]; [by left|].
  right. by apply elem_of_cons; left.
Qed.

Lemma act_from (s : Page) (a : Action) (x : Fact) :
  x ∈ items (act s a) →
  x ∈ items s ∨ ∃ batch, a = Settle (Batch batch) ∧ x ∈ batch.
Proof.
  destruct a as [| | |[| |[|item rest]]]; try by left.
  unfold act, fetchPage_settle.
  pose proof (dedupe_from (item :: rest) ([], seenIds s) x) as Hfrom.
  fold (dedupe (item :: rest) (seenIds s)) in Hfrom.
  destruct (dedupe (item :: rest) (seenIds s)) as [uniqueItems seen].
  cbn [items fst] in *. intros [Hin | Hin]%elem_of_app; [by left|].
  destruct (Hfrom Hin) as [Hnil%elem_of_nil | Hbatch]; [done|].
  right. by exists (item :: rest).
Qed.

Lemma foldl_act_from (actions : list Action) (s : Page) (x : Fact) :
  x ∈ items (foldl act s actions) →
  x ∈ items s ∨ ∃ batch, Settle (Batch batch) ∈ actions ∧ x ∈ batch.
Proof.
  revert s. induction actions as [|a actions IH]; intros s; [by left|].
  cbn [foldl]. intros [Hin | (batch & Hbatch & Hx)]%IH.
  - apply act_from in Hin as [Hin | (batch & -> & Hx)]; [by left|].
    right. exists batch. split; [by apply elem_of_cons; left|done].
  - right. exists batch. split; [by apply elem_of_cons; right|done].
Qed.

Lemma foldl_act_appends (actions : list Action) (s : Page) :
  seenIds s = list_to_set (f_id <$> items s) →
  ∃ new, items (foldl act s actions) = items s ++ new
         ∧ seenIds (foldl act s actions)
           = list_to_set (f_id <$> items (foldl act s actions)).
Proof.
  revert s. induction actions as [|a actions IH]; intros s Hseen.
  - exists []. simpl. by rewrite app_nil_r.
  - simpl. destruct (act_appends s a Hseen) as (new & Hitems & Hseen' & _).
    destruct (IH (act s a) Hseen') as (new' & Hitems' & Hseen'').
    exists (new ++ new'). split; [|done]. by rewrite Hitems', Hitems, app_assoc.
Qed.

(** X20. The ref [seenIds] and the state [items] never drift apart: after any
    actions the seen ids are exactly the ids of the listed facts. *)
Theorem seen_ids_are_the_listed_ids (actions : list Action) :
  seenIds (run actions) = list_to_set (f_id <$> items (run actions)).
Proof.
  unfold run. by destruct (foldl_act_appends actions initial eq_refl) as (new & _ & Hseen).
Qed.

(** X21. The list only grows at its end: what is displayed after some actions
    is still displayed, in the same places, after any further actions. *)
Theorem displayed_items_never_change (actions more : list Action) :
  items (run actions) `prefix_of` items (run (actions ++ more)).
Proof.
  unfold run. rewrite foldl_app.
  destruct (foldl_act_appends actions initial eq_refl) as (new & _ & Hseen).
  destruct (foldl_act_appends more (foldl act initial actions) Hseen) as (new' & Hitems & _).
  exists new'. exact Hitems.
Qed.

(** X22. Nothing the client has received is missing: every fact of every batch
    a request ended with is listed under its id. *)
Theorem every_received_fact_is_listed
    (actions : list Action) (i j : nat) (batch : list Fact) (x : Fact) :
  actions !! i = Some (Settle (Batch batch)) →
  batch !! j = Some x →
  ∃ y, y ∈ items (run actions) ∧ f_id y = f_id x.
Proof.
  intros Hi Hj. unfold run.
  rewrite <- (take_drop_middle actions i _ Hi).
  rewrite foldl_app. cbn [foldl].
  destruct (foldl_act_appends (take i actions) initial eq_refl) as (new & _ & Hseen).
  set (s := foldl act initial (take i actions)) in *.
  destruct (act_appends s (Settle (Batch batch)) Hseen) as (new' & _ & Hseen' & Hall).
  destruct (foldl_act_appends (drop (S i) actions) _ Hseen') as (new'' & Hitems & _).
  rewrite Hitems.
  pose proof (Hall batch eq_refl x (list_elem_of_lookup_2 _ _ _ Hj)) as Hin.
  rewrite Hseen' in Hin. apply elem_of_list_to_set in Hin.
  apply list_elem_of_fmap in Hin as (y & Hy & Hiny).
  exists y. split; [|done]. apply elem_of_app. by left.
Qed.

Lemma every_received_fact_is_listed_witness :
  ∃ y, y ∈ items (run [Mount; Settle (Batch (GET 1 0 0)); LoadMore;
                       Settle (Batch (GET 2 0 1))])
       ∧ f_id y = f_id (fact_at 8).
Proof.
  apply (every_received_fact_is_listed
           [Mount; Settle (Batch (GET 1 0 0)); LoadMore; Settle (Batch (GET 2 0 1))]
           3 0 (GET 2 0 1) (fact_at 8)); reflexivity.
Defined.

(** X23. Nothing is listed that no request brought: every listed fact is a
    fact of a batch some request ended with. *)
Theorem listed_facts_were_received (actions : list Action) (i : nat) (x : Fact) :
  items (run actions) !! i = Some x →
  ∃ batch, Settle (Batch batch) ∈ actions ∧ x ∈ batch.
Proof.
  intros Hx%list_elem_of_lookup_2. unfold run in Hx.
  by apply foldl_act_from in Hx as [Hnil%elem_of_nil | Hfrom].
Qed.

Lemma listed_facts_were_received_witness :
  ∃ batch, Settle (Batch batch) ∈ [Mount; Settle (Batch (GET 1 0 0))]
           ∧ fact_at 3 ∈ batch.
Proof.
  apply (listed_facts_were_received [Mount; Settle (Batch (GET 1 0 0))] 3 (fact_at 3)).
  reflexivity.
Defined.

(** *** The client against the handler *)

(** The handler looks at its two random values only through the two
    comparisons. *)
Lemma GET_draws (page : Z) (shrink_random overlap_random : Q) :
  GET page shrink_random overlap_random
  = GET page (if Qgtb shrink_random lit_0_7 then 1 else 0)%Q
             (if Qgtb overlap_random lit_0_6 then 1 else 0)%Q.
Proof.
  unfold GET. by destruct (Qgtb shrink_random lit_0_7), (Qgtb overlap_random lit_0_6).
Qed.

Lemma walk_five (d1 d2 d3 d4 d5 : Q * Q) :
  walk [d1; d2; d3; d4; d5]
  = [Mount; Settle (Batch (GET 1 d1.1 d1.2));
     LoadMore; Settle (Batch (GET 2 d2.1 d2.2));
     LoadMore; Settle (Batch (GET 3 d3.1 d3.2));
     LoadMore; Settle (Batch (GET 4 d4.1 d4.2));
     LoadMore; Settle (Batch (GET 5 d5.1 d5.2))].
Proof. by destruct d1, d2, d3, d4, d5. Qed.

Lemma five_draws (draws : list (Q * Q)) :
  length draws = 5%nat → ∃ d1 d2 d3 d4 d5, draws = [d1; d2; d3; d4; d5].
Proof.
  destruct draws as [|d1 [|d2 [|d3 [|d4 [|d5 [|d6 rest]]]]]]; try done.
  intros _. by exists d1, d2, d3, d4, d5.
Qed.

(** X24. Overlaps do no harm: when the five pages are walked in order and no
    page is shortened, the client ends with exactly the fifty records, in
    the order of the data, whichever pages came with an overlap. *)
Theorem full_walk_lists_the_data (draws : list (Q * Q)) :
  length draws = 5%nat →
  Forall (fun d => Qgtb d.1 lit_0_7 = false) draws →
  items (run (walk draws)) = FACTS_DB.
Proof.
  intros (d1 & d2 & d3 & d4 & d5 & ->)%five_draws Hfull.
  rewrite walk_five.
  rewrite (GET_draws 1), (GET_draws 2), (GET_draws 3), (GET_draws 4), (GET_draws 5).
  repeat (apply Forall_cons in Hfull as [-> Hfull]).
  destruct (Qgtb d1.2 lit_0_6), (Qgtb d2.2 lit_0_6), (Qgtb d3.2 lit_0_6),
    (Qgtb d4.2 lit_0_6), (Qgtb d5.2 lit_0_6); vm_compute; reflexivity.
Qed.

Lemma full_walk_lists_the_data_witness :
  items (run (walk [(0, 0); (0, 1); (0, 0); (0, 1); (0, 1)]%Q)) = FACTS_DB.
Proof.
  apply full_walk_lists_the_data; [reflexivity|].
  repeat (apply Forall_cons; split; [reflexivity|]). apply Forall_nil_2.
Defined.

(** The eighth record of a page is in the answer to a request only when
    the request is for that page and the answer is not shortened. *)
Lemma eighth_record_sources (k : nat) (q : Z) (shrink_random overlap_random : Q) :
  (k < 5)%nat → 1 ≤ q ≤ 5 →
  f_id (fact_at (10 * k + 7)) ∈ f_id <$> GET q shrink_random overlap_random →
  q = Z.of_nat k + 1 ∧ Qgtb shrink_random lit_0_7 = false.
Proof.
  intros Hk Hq. rewrite GET_draws.
  assert (q = 1 ∨ q = 2 ∨ q = 3 ∨ q = 4 ∨ q = 5)
    as [-> | [-> | [-> | [-> | ->]]]] by lia;
    (destruct k as [|[|[|[|[|k]]]]]; [| | | | |lia]);
    destruct (Qgtb shrink_random lit_0_7), (Qgtb overlap_random lit_0_6);
    first
      [ intros _; split; reflexivity
      | intros Hin; exfalso; revert Hin;
        match goal with |- ?x ∈ ?l → False => apply (bool_decide_eq_false_1 (x ∈ l)) end;
        vm_compute; reflexivity ].
Qed.

(** X25. A shortened page costs a record: when the five pages are walked in
    order and the answer for page [k + 1] is shortened, the eighth record of
    that page is never listed, whatever the other draws are: the overlap of
    the next page only brings back the ninth and the tenth. *)
Theorem shortened_page_loses_a_record (draws : list (Q * Q)) (k : nat) (d : Q * Q) :
  length draws = 5%nat →
  draws !! k = Some d →
  Qgtb d.1 lit_0_7 = true →
  f_id (fact_at (10 * k + 7)) ∉ f_id <$> items (run (walk draws)).
Proof.
  intros (d1 & d2 & d3 & d4 & d5 & ->)%five_draws Hk Hshort.
  assert (k < 5)%nat as Hk5 by (apply lookup_lt_Some in Hk; simpl in Hk; lia).
  rewrite walk_five. intros (y & Hid & Hy)%list_elem_of_fmap.
  unfold run in Hy. apply foldl_act_from in Hy as [Hnil%elem_of_nil | (batch & Hbatch & Hy)];
    [done|].
  assert (∃ q dq, 1 ≤ q ≤ 5 ∧ [d1; d2; d3; d4; d5] !! Z.to_nat (q - 1) = Some dq
                  ∧ batch = GET q dq.1 dq.2) as (q & dq & Hq & Hdq & ->).
  { repeat (apply elem_of_cons in Hbatch as [Hbatch | Hbatch];
            [try discriminate Hbatch; injection Hbatch as ->|]).
    - by exists 1, d1. 
    - by exists 2, d2. 
    - by exists 3, d3. 
    - by exists 4, d4. 
    - by exists 5, d5. 
    - by apply elem_of_nil in Hbatch. }
  destruct (eighth_record_sources k q dq.1 dq.2 Hk5 Hq) as [-> Hfull].
  { rewrite Hid. apply list_elem_of_fmap. by exists y. }
  replace (Z.to_nat (Z.of_nat k + 1 - 1)) with k in Hdq by lia.
  congruence.
Qed.

Lemma shortened_page_loses_a_record_witness :
  Qgtb 1 lit_0_7 = true
  ∧ f_id (fact_at 17)
      ∉ f_id <$> items (run (walk [(0, 0); (1, 0); (0, 1); (0, 0); (0, 0)]%Q)).
Proof.
  split; [reflexivity|].
  apply (shortened_page_loses_a_record _ 1 (1, 0)%Q); reflexivity.
Defined.

End PaginationExtra.

(** * The load effect over a damaged ledger *)

Module HydrationExtra.

Import Ledger.

(** The loop over saved entries followed by anything: the saved entries
    are handled as the typed page handles them, then the rest is visited. *)
Lemma raw_forEach_saved_then (l : list Transaction) (rest resumed : list json) :
  raw_forEach ((tx_json <$> l) ++ rest) resumed
  = raw_forEach rest (resumed ++ (tx_json <$> filter (fun tx => resumable tx = true) l)).
Proof.
  revert resumed. induction l as [|t l IH]; intros resumed.
  - simpl. by rewrite app_nil_r.
  - rewrite fmap_cons, <- app_comm_cons, HydrationProofs.raw_forEach_step, filter_cons.
    destruct (resumable t) eqn:Ht; rewrite IH.
    + destruct (decide (true = true)); [|done].
      by rewrite fmap_cons, <- app_assoc.
    + by destruct (decide (false = true)).
Qed.

(** X26. A [null] among the saved entries stops the resume loop where it
    stands: the whole document has become the ledger and the page is marked
    loaded, the live entries before the [null] have been restarted, the
    [catch] block has printed its line, and no entry after the [null] is
    restarted, live or not. *)
Theorem null_entry_stops_the_resume_loop (before : list Transaction) (after : list json) :
  raw_load (Saved (JArr ((tx_json <$> before) ++ JNull :: after))) raw_initial
  = mkRawPage (JArr ((tx_json <$> before) ++ JNull :: after)) true
      (tx_json <$> filter (fun tx => resumable tx = true) before)
      [console_error "Failed to parse logs"].
Proof.
  unfold raw_load, raw_load_try. cbn [truthy_item raw_initial raw_resumed].
  by rewrite raw_forEach_saved_then.
Qed.

End HydrationExtra.
